(** * gotimer: a shallow embedding of [gotimer.go] and its properties

    The package schedules one-shot and repeating callbacks on one background
    goroutine.  The development has three layers, in the order of the source:

    - the two timer variants ([IntervalTimer], [OneTimer]) and their methods;
    - the scheduler: Go slices with their backing array, the sweep of the
      live timers, the removal loop and the [poll] loop with its deferred
      [recover];
    - the registration side: [instance], [queue] and the two constructors.

    Conventions of the embedding:

    - [time.Time] and [time.Duration] are integers (nanoseconds on the
      monotonic clock), without the bounds of their machine representation;
      every call of [time.Now()] advances the clock by an amount chosen by
      the environment (the list [ticks] of the state), and the time of a
      fire is the reading of the clock that [tick] was given;
    - a callback is a function on an abstract [World]; it either returns or
      panics with a value, it cannot reach the unexported fields of the
      timers, and it does not call into the package;
    - timers live in a heap and are referred to by pointer, since the same
      pointer can sit in several cells of the scheduler's backing array;
    - goroutines are interleaved at the grain of one constructor call and one
      trip round the [for] loop of [poll]; the unsynchronised accesses to
      [_scheduler] are taken as atomic. *)

From Stdlib Require Import ZArith Lia.
From stdpp Require Import base list strings.
From stdpp Require Import list_relations.

(** ** Time *)

Abbreviation Time := Z (only parsing).
Abbreviation Duration := Z (only parsing).

(** [t.After(u)] *)
Definition Time_After (t u : Time) : bool := bool_decide (u < t)%Z.
(** [t.Add(d)] *)
Definition Time_Add (t : Time) (d : Duration) : Time := (t + d)%Z.

(** ** Pointers

    A timer is referred to by its address in the heap; a value of the
    interface type [timer] is nil or such an address. *)

Abbreviation ptr := nat (only parsing).
Abbreviation timer := (option nat) (only parsing).

(** ** Results of code that may panic *)

Inductive res (A : Type) : Type :=
| Ok (a : A)
| Panic (v : string).
Arguments Ok {A} a.
Arguments Panic {A} v.

Section Model.
Context {World : Type}.

(** A Go [func(T)]: it acts on the world and returns ([None]) or panics
    with a value ([Some v]). *)
Definition func (T : Type) : Type := T → World → World * option string.

(** ** Timer variants (lines 89-131) *)

Record IntervalTimer (T : Type) : Type := mkIntervalTimer {
  it_c : Time;
  it_i : Duration;
  it_n : Time;
  it_fn : func T;
  it_t : T;
  it_s : bool
}.
Arguments mkIntervalTimer {T}.
Arguments it_c {T}. Arguments it_i {T}. Arguments it_n {T}.
Arguments it_fn {T}. Arguments it_t {T}. Arguments it_s {T}.

Record OneTimer (T : Type) : Type := mkOneTimer {
  ot_c : Time;
  ot_fn : func T;
  ot_t : T
}.
Arguments mkOneTimer {T}.
Arguments ot_c {T}. Arguments ot_fn {T}. Arguments ot_t {T}.

(** What one call of [tick] did: the receiver afterwards, the world
    afterwards, whether the callback was invoked, and the panic value when
    the callback panicked. *)
Record ticked (A : Type) : Type := mkTicked {
  after : A;
  world_after : World;
  called : bool;
  panicked : option string
}.
Arguments mkTicked {A}.
Arguments after {A}. Arguments world_after {A}.
Arguments called {A}. Arguments panicked {A}.

Definition IntervalTimer_getCreated {T} (self : IntervalTimer T) : Time :=
  it_c self.

(** [return &self.i]: never nil. *)
Definition IntervalTimer_getInterval {T} (self : IntervalTimer T)
  : option Duration := Some (it_i self).

Definition IntervalTimer_getStop {T} (self : IntervalTimer T) : bool :=
  it_s self.

Definition set_n {T} (self : IntervalTimer T) (n : Time) : IntervalTimer T :=
  mkIntervalTimer (it_c self) (it_i self) n (it_fn self) (it_t self)
                  (it_s self).

(** [if t.After(self.n) { self.fn(self.t); self.n = t.Add(self.i) }].
    When the callback panics the assignment is not reached. *)
Definition IntervalTimer_tick {T} (self : IntervalTimer T) (t : Time)
    (w : World) : ticked (IntervalTimer T) :=
  if Time_After t (it_n self) then
    match it_fn self (it_t self) w with
    | (w', None) => mkTicked (set_n self (Time_Add t (it_i self))) w' true None
    | (w', Some v) => mkTicked self w' true (Some v)
    end
  else mkTicked self w false None.

Definition OneTimer_getCreated {T} (self : OneTimer T) : Time := ot_c self.

(** [return nil] *)
Definition OneTimer_getInterval {T} (self : OneTimer T) : option Duration :=
  None.

Definition OneTimer_getStop {T} (self : OneTimer T) : bool := true.

(** [self.fn(self.t)]; the argument [t] is not looked at. *)
Definition OneTimer_tick {T} (self : OneTimer T) (t : Time) (w : World)
  : ticked (OneTimer T) :=
  match ot_fn self (ot_t self) w with
  | (w', r) => mkTicked self w' true r
  end.


(** ** The [timer] interface (lines 18-23)

    A value of interface type [timer] is nil or a pointer to a timer of
    either variant, for some payload type. *)

Inductive object : Type :=
| ObjInterval {T : Type} (x : IntervalTimer T)
| ObjOne {T : Type} (x : OneTimer T).


Definition object_getInterval (o : object) : option Duration :=
  match o with
  | ObjInterval x => IntervalTimer_getInterval x
  | ObjOne x => OneTimer_getInterval x
  end.

Definition object_getCreated (o : object) : Time :=
  match o with
  | ObjInterval x => IntervalTimer_getCreated x
  | ObjOne x => OneTimer_getCreated x
  end.

Definition object_getStop (o : object) : bool :=
  match o with
  | ObjInterval x => IntervalTimer_getStop x
  | ObjOne x => OneTimer_getStop x
  end.

Definition object_tick (o : object) (t : Time) (w : World) : ticked object :=
  match o with
  | ObjInterval x =>
      let r := IntervalTimer_tick x t w in
      mkTicked (ObjInterval (after r)) (world_after r) (called r) (panicked r)
  | ObjOne x =>
      let r := OneTimer_tick x t w in
      mkTicked (ObjOne (after r)) (world_after r) (called r) (panicked r)
  end.

(** ** Slices

    A slice is a backing array and a length; its capacity is the length of
    the array.  Every slice of the source starts at index 0 of its array, and
    only [s.timers] outlives a statement, so the array is owned by the
    slice. *)

Record slice : Type := mkSlice { arr : list timer; len : nat }.

Definition cap (s : slice) : nat := length (arr s).

(** The elements a [range] sees. *)
Definition elems (s : slice) : list timer := take (len s) (arr s).

(** [make([]timer, 0)] *)
Definition make0 : slice := mkSlice [] 0.

(** [s[:j]]: allowed up to the capacity, beyond it the runtime panics. *)
Definition reslice (s : slice) (j : nat) : res slice :=
  if decide (j ≤ cap s) then Ok (mkSlice (arr s) j)
  else Panic "runtime error: slice bounds out of range".

(** The capacity of the array [append] allocates when the values do not fit
    is the runtime's choice, here [growcap old needed]; it is at least the
    needed length. *)
Context (growcap : nat → nat → nat).

(** [append(a, vs...)]: [vs] was read before anything is written (the
    runtime moves the values as if through a buffer).  In place when the
    values fit in the capacity of [a], else in a fresh array whose spare
    cells are nil. *)
Definition append (a : slice) (vs : list timer) : slice :=
  let need := len a + length vs in
  if decide (need ≤ cap a) then
    mkSlice (take (len a) (arr a) ++ vs ++ drop need (arr a)) need
  else
    mkSlice (take (len a) (arr a) ++ vs ++
             replicate (Nat.max need (growcap (cap a) need) - need) None)
            need.

(** ** Program state *)

(** A goroutine inside [queue] that holds the scheduler [s]: it is asleep
    until [wake] or parked on [s.queue <- t].  [for_caller] tells the
    goroutine of the constructor's caller (no delay) from a detached one. *)
Record sender : Type := mkSender {
  sent : timer;
  wake : Time;
  for_caller : bool
}.

(** The [scheduler] struct.  The channel [queue] is represented by the
    goroutines that will send on it, and [polling] tells whether the
    goroutine started by [go _scheduler.poll()] is still in its loop.  The
    channel [stop] has no sender in the package: a stop signal is an input of
    the environment. *)
Record scheduler : Type := mkScheduler {
  timers : slice;
  queue_ch : list sender;
  polling : bool
}.

(** The program state: the heap of timers, what the callbacks act on, the
    last reading of the clock and the advances that are still to come, and
    the package variable [_scheduler]; then two records of what has
    happened, the invocations of callbacks (address of the timer and time
    given to [tick]) and the lines printed. *)
Record state : Type := mkState {
  heap : list object;
  world : World;
  clock : Time;
  ticks : list N;
  _scheduler : option scheduler;
  fires : list (ptr * Time);
  stdout : list string
}.

Definition set_heap (h : list object) (st : state) : state :=
  mkState h (world st) (clock st) (ticks st) (_scheduler st) (fires st)
          (stdout st).
Definition set_world (w : World) (st : state) : state :=
  mkState (heap st) w (clock st) (ticks st) (_scheduler st) (fires st)
          (stdout st).
Definition set_clock (c : Time) (st : state) : state :=
  mkState (heap st) (world st) c (ticks st) (_scheduler st) (fires st)
          (stdout st).
Definition set_ticks (k : list N) (st : state) : state :=
  mkState (heap st) (world st) (clock st) k (_scheduler st) (fires st)
          (stdout st).
Definition set_scheduler (s : option scheduler) (st : state) : state :=
  mkState (heap st) (world st) (clock st) (ticks st) s (fires st) (stdout st).
Definition set_fires (f : list (ptr * Time)) (st : state) : state :=
  mkState (heap st) (world st) (clock st) (ticks st) (_scheduler st) f
          (stdout st).
Definition set_stdout (o : list string) (st : state) : state :=
  mkState (heap st) (world st) (clock st) (ticks st) (_scheduler st)
          (fires st) o.

(** ** A state monad with panics

    The state survives a panic: what was written before it stays written. *)

Definition M (A : Type) : Type := state → state * res A.

Definition ret {A} (a : A) : M A := λ st, (st, Ok a).

Definition bind {A B} (m : M A) (k : A → M B) : M B :=
  λ st, match m st with
        | (st', Ok a) => k a st'
        | (st', Panic v) => (st', Panic v)
        end.

Definition lift {A} (r : res A) : M A := λ st, (st, r).

Notation "x <~ m ;; k" := (bind m (λ x, k))
  (at level 100, m at next level, right associativity).

(** The clock after the next advance of the environment. *)
Definition next_time (st : state) : Time :=
  match ticks st with
  | [] => clock st
  | d :: _ => (clock st + Z.of_N d)%Z
  end.

(** The state once that advance has been made. *)
Definition after_now (st : state) : state :=
  set_clock (next_time st) (set_ticks (tail (ticks st)) st).

(** [time.Now()] *)
Definition time_Now : M Time :=
  λ st, (after_now st, Ok (next_time st)).

(** [fmt.Printf] *)
Definition Printf (line : string) : M unit :=
  λ st, (set_stdout (stdout st ++ [line]) st, Ok tt).

Definition nil_dereference : string :=
  "runtime error: invalid memory address or nil pointer dereference".

(** A method call through an interface value: nil panics, a pointer leads
    to its object. *)
Definition deref (t : timer) : M (ptr * object) :=
  λ st, match t with
        | None => (st, Panic nil_dereference)
        | Some p => match heap st !! p with
                    | Some o => (st, Ok (p, o))
                    | None => (st, Panic nil_dereference)
                    end
        end.

Definition timer_getInterval (t : timer) : M (option Duration) :=
  po <~ deref t ;; ret (object_getInterval po.2).

Definition timer_getStop (t : timer) : M bool :=
  po <~ deref t ;; ret (object_getStop po.2).

(** [t.tick(now)] on the object behind the pointer.  The receiver is written
    back, the world is the callback's, and an invocation of the callback is
    logged in [fires] with the time it was given. *)
Definition timer_tick (t : timer) (now : Time) : M unit :=
  po <~ deref t ;;
  λ st, let r := object_tick po.2 now (world st) in
        let st1 := set_world (world_after r)
                     (set_heap (<[po.1 := after r]> (heap st)) st) in
        let st2 := if called r
                   then set_fires (fires st1 ++ [(po.1, now)]) st1
                   else st1 in
        (st2, match panicked r with None => Ok tt | Some v => Panic v end).

(** ** The sweep (lines 53-65) *)

(** The body of [for i, t := range s.timers]; [del] is the slice of indices
    marked so far. *)
Definition sweep_one (i : nat) (t : timer) (del : list nat) : M (list nat) :=
  iv <~ timer_getInterval t ;;
  match iv with
  | None =>
      now <~ time_Now ;;
      _ <~ timer_tick t now ;;
      ret (del ++ [i])
  | Some _ =>
      stop <~ timer_getStop t ;;
      if stop : bool then ret (del ++ [i])
      else now <~ time_Now ;;
           _ <~ timer_tick t now ;;
           ret del
  end.

Fixpoint sweep_from (i : nat) (ts : list timer) (del : list nat)
  : M (list nat) :=
  match ts with
  | [] => ret del
  | t :: ts' => del' <~ sweep_one i t del ;; sweep_from (S i) ts' del'
  end.

(** ** The removal loop (lines 66-68) *)

(** [append(s.timers[:idx], s.timers[:idx+1]...)] *)
Definition remove_at (idx : nat) (tm : slice) : res slice :=
  match reslice tm idx with
  | Panic v => Panic v
  | Ok a => match reslice tm (idx + 1) with
            | Panic v => Panic v
            | Ok b => Ok (append a (elems b))
            end
  end.

(** The removal loop on the slice alone. *)
Fixpoint remove_all (del : list nat) (tm : slice) : res slice :=
  match del with
  | [] => Ok tm
  | idx :: del' => match remove_at idx tm with
                   | Panic v => Panic v
                   | Ok tm' => remove_all del' tm'
                   end
  end.

(** ** [poll] (lines 39-75) *)

(** What the [select] of one trip round the loop does: a stop signal is
    received, the [k]-th goroutine waiting on [s.queue] is received from, or
    neither is ready and the default branch runs. *)
Inductive selected : Type :=
| SelStop
| SelQueue (k : nat)
| SelDefault.

(** The receiver [s] of [poll] is the scheduler [_scheduler] points to. *)
Definition load_s : M scheduler :=
  λ st, match _scheduler st with
        | Some s => (st, Ok s)
        | None => (st, Panic nil_dereference)
        end.

Definition store_s (s : scheduler) : M unit :=
  λ st, (set_scheduler (Some s) st, Ok tt).

(** [s.timers = tm] *)
Definition store_timers (tm : slice) : M unit :=
  s <~ load_s ;; store_s (mkScheduler tm (queue_ch s) (polling s)).

(** A receive from a goroutine that slept until [w] happens at or after
    [w]: the clock is at least [w] from then on. *)
Definition time_passed (w : Time) : M unit :=
  λ st, (set_clock (Z.max (clock st) w) st, Ok tt).

(** [s.timers = append(s.timers[:idx], s.timers[:idx+1]...)] *)
Definition remove_one (idx : nat) : M unit :=
  s <~ load_s ;;
  tm <~ lift (remove_at idx (timers s)) ;;
  store_timers tm.

(** [for _, idx := range del { ... }] *)
Fixpoint remove_marked (del : list nat) : M unit :=
  match del with
  | [] => ret tt
  | idx :: del' => _ <~ remove_one idx ;; remove_marked del'
  end.

(** The default branch: sweep, then remove at the marked indices. *)
Definition sweep : M unit :=
  s <~ load_s ;;
  del <~ sweep_from 0 (elems (timers s)) [] ;;
  remove_marked del.

(** The [select] statement; the result is [b]. *)
Definition poll_select (sel : selected) : M bool :=
  match sel with
  | SelStop => ret true
  | SelQueue k =>
      s <~ load_s ;;
      match queue_ch s !! k with
      | None => ret false
      | Some g =>
          _ <~ time_passed (wake g) ;;
          _ <~ store_s (mkScheduler (append (timers s) [sent g])
                                    (delete k (queue_ch s)) (polling s)) ;;
          ret false
      end
  | SelDefault => _ <~ sweep ;; ret false
  end.

(** Whether the case can be the one [select] takes. *)
Definition ready (sel : selected) (st : state) : bool :=
  match sel, _scheduler st with
  | SelQueue k, Some s => bool_decide (is_Some (queue_ch s !! k))
  | SelQueue k, None => false
  | _, _ => true
  end.

(** A function that starts with
    [defer func() { if r := recover(); r != nil { h(r) } }()]:
    a panic of the body is handed to [h] and the function returns, without a
    result ([None]). *)
Definition deferred_recover {A} (h : string → M unit) (body : M A)
  : M (option A) :=
  λ st, match body st with
        | (st', Ok a) => (st', Ok (Some a))
        | (st', Panic v) => (_ <~ h v ;; ret None) st'
        end.

Definition recovered (r : string) : M unit :=
  Printf ("recovered from panic: " +:+ r).

(** One trip round the [for] loop, and what follows when it is the last:
    [Some false], the loop goes on; [Some true], [b] was set, the loop was
    left and [_scheduler = nil] was run; [None], the trip panicked and the
    deferred function recovered, so [poll] has returned without reaching
    line 74. *)
Definition poll_round (sel : selected) : M (option bool) :=
  deferred_recover recovered
    (b <~ poll_select sel ;;
     if b : bool then λ st, (set_scheduler None st, Ok true)
     else ret false).

(** The goroutine of [poll] is gone. *)
Definition poll_returned (st : state) : state :=
  match _scheduler st with
  | Some s => set_scheduler (Some (mkScheduler (timers s) (queue_ch s) false))
                            st
  | None => st
  end.

(** ** Registration (lines 27-37, 77-87, 134-155) *)

(** [instance()]: the check and the creation are taken as one step. *)
Definition instance : M scheduler :=
  λ st, match _scheduler st with
        | Some s => (st, Ok s)
        | None => let s := mkScheduler make0 [] true in
                  (set_scheduler (Some s) st, Ok s)
        end.

(** How a call ends at this grain: it returns, or its goroutine is parked on
    the send [s.queue <- t] and returns only when [poll] receives from it. *)
Inductive outcome (A : Type) : Type :=
| Returns (a : A)
| BlocksOnSend (a : A).
Arguments Returns {A} a.
Arguments BlocksOnSend {A} a.

Definition handle {A} (o : outcome A) : A :=
  match o with Returns a => a | BlocksOnSend a => a end.

Definition send_on_queue (g : sender) : M unit :=
  s <~ load_s ;;
  store_s (mkScheduler (timers s) (queue_ch s ++ [g]) (polling s)).

(** [queue(t, delay)].  With a delay a goroutine is started that sleeps and
    then sends (the delay is taken as read at the call); without one the
    send is made by the calling goroutine, on an unbuffered channel whose
    only receiver is the [select] of [poll], which never waits for a
    sender: the caller is parked until a later [select] takes the timer. *)
Definition queue (t : timer) (delay : option Duration) : M (outcome unit) :=
  _ <~ instance ;;
  match delay with
  | Some d =>
      _ <~ (λ st, send_on_queue (mkSender t (clock st + d)%Z false) st) ;;
      ret (Returns tt)
  | None =>
      _ <~ (λ st, send_on_queue (mkSender t (clock st) true) st) ;;
      ret (BlocksOnSend tt)
  end.

(** [&X{...}]: a fresh object; its address is the next free one. *)
Definition new (o : object) : M ptr :=
  λ st, (set_heap (heap st ++ [o]) st, Ok (length (heap st))).

(** The deferred [queue(t, delay)] runs after [return t] has set the result
    and before the caller gets it. *)
Definition NewIntervalTimer {T} (fn : func T) (v : T)
    (delay : option Duration) (interval : Duration) : M (outcome ptr) :=
  c <~ time_Now ;;
  n <~ time_Now ;;
  t <~ new (ObjInterval
              (mkIntervalTimer c interval (Time_Add n interval) fn v false)) ;;
  q <~ queue (Some t) delay ;;
  ret (match q with
       | Returns _ => Returns t
       | BlocksOnSend _ => BlocksOnSend t
       end).

Definition NewOneTimer {T} (fn : func T) (v : T) (delay : option Duration)
  : M (outcome ptr) :=
  c <~ time_Now ;;
  t <~ new (ObjOne (mkOneTimer c fn v)) ;;
  q <~ queue (Some t) delay ;;
  ret (match q with
       | Returns _ => Returns t
       | BlocksOnSend _ => BlocksOnSend t
       end).

(** ** The program as a transition system *)

Inductive event : Type :=
| CallNewOneTimer {T : Type} (fn : func T) (v : T) (delay : option Duration)
| CallNewIntervalTimer {T : Type} (fn : func T) (v : T)
    (delay : option Duration) (interval : Duration)
| PollRound (sel : selected).

(** The goroutine of [poll] makes one trip round its loop, when there is
    such a goroutine and the chosen case is ready. *)
Definition poll_step (sel : selected) (st : state) : state :=
  match _scheduler st with
  | Some s =>
      if polling s && ready sel st then
        match poll_round sel st with
        | (st', Ok (Some _)) => st'
        | (st', Ok None) => poll_returned st'
        | (st', Panic _) => poll_returned st'
        end
      else st
  | None => st
  end.

Definition step (e : event) (st : state) : state :=
  match e with
  | CallNewOneTimer fn v delay => (NewOneTimer fn v delay st).1
  | CallNewIntervalTimer fn v delay interval =>
      (NewIntervalTimer fn v delay interval st).1
  | PollRound sel => poll_step sel st
  end.

Definition run (es : list event) (st : state) : state :=
  foldl (λ s e, step e s) st es.

(** The program before anything has been called. *)
Definition boot (w : World) (k : list N) : state :=
  mkState [] w 0%Z k None [] [].

(** The times at which the callback of the timer at [p] was invoked, in the
    order of the invocations. *)
Definition fires_of (p : ptr) (st : state) : list Time :=
  (filter (λ e, e.1 = p) (fires st)).*2.

(** ** Predicates used in the statements *)

(** The scheduler [instance()] returns. *)
Definition current_scheduler (st : state) : scheduler :=
  default (mkScheduler make0 [] true) (_scheduler st).

(** The state once the goroutine [g] waits on the queue of that
    scheduler. *)
Definition enqueued (g : sender) (st : state) : state :=
  let s := current_scheduler st in
  set_scheduler (Some (mkScheduler (timers s) (queue_ch s ++ [g]) (polling s)))
                st.

(** The goroutine [queue(t, delay)] leaves behind when called at [now]. *)
Definition queued (t : timer) (delay : option Duration) (now : Time) : sender :=
  mkSender t (now + default 0%Z delay)%Z (bool_decide (delay = None)).

(** What holds after [m] has run from [st]: [Q] of the result when it
    returns, [E] of the panic value when it panics. *)
Definition wp {A} (m : M A) (Q : A → state → Prop) (E : string → state → Prop)
    (st : state) : Prop :=
  match m st with
  | (st', Ok a) => Q a st'
  | (st', Panic v) => E v st'
  end.

(** The live set is one one-shot timer whose callback returns, and [poll]
    is running. *)
Definition lone_one_shot (p : ptr) (st : state) : Prop :=
  ∃ s T (x : OneTimer T),
    _scheduler st = Some s ∧ polling s = true ∧
    elems (timers s) = [Some p] ∧ len (timers s) ≤ cap (timers s) ∧
    heap st !! p = Some (ObjOne x) ∧
    ∀ w, (ot_fn x (ot_t x) w).2 = None.


(** There is no scheduler whose loop has returned through a recovered
    panic. *)
Definition alive (st : state) : bool :=
  match _scheduler st with
  | Some s => polling s
  | None => true
  end.





(** ** Predicates of the further properties *)

(** The callback of a timer returns on its bound payload, whatever the
    world. *)
Definition object_gentle (o : object) : Prop :=
  match o with
  | ObjInterval x => ∀ w, (it_fn x (it_t x) w).2 = None
  | ObjOne x => ∀ w, (ot_fn x (ot_t x) w).2 = None
  end.

(** The stop flag of an interval timer is as the constructor left it. *)
Definition object_unstopped (o : object) : Prop :=
  match o with
  | ObjInterval x => it_s x = false
  | ObjOne _ => True
  end.

(** What the sweep only ticks and never marks: a timer with an interval
    whose stop flag is unset. *)
Definition object_repeats (o : object) : Prop :=
  is_Some (object_getInterval o) ∧ object_getStop o = false.

(** The interface value points to a timer of the heap [h] that is [good]. *)
Definition points_to (good : object → Prop) (h : list object) (t : timer)
  : Prop :=
  ∃ q o, t = Some q ∧ h !! q = Some o ∧ good o.

(** Every timer the event can build is [good]: the constructors choose
    the creation time and [nextDue], and leave the stop flag unset. *)
Definition event_builds (good : object → Prop) (e : event) : Prop :=
  match e with
  | CallNewOneTimer fn v _ => ∀ c, good (ObjOne (mkOneTimer c fn v))
  | CallNewIntervalTimer fn v _ interval =>
      ∀ c n, good (ObjInterval (mkIntervalTimer c interval n fn v false))
  | PollRound _ => True
  end.

(** The live set fits its backing array, and its entries, like the timers
    carried by the goroutines on the queue, are pointers into the heap. *)
Definition live_ok (st : state) : Prop :=
  let s := current_scheduler st in
  len (timers s) ≤ cap (timers s) ∧
  Forall (λ t, ∃ q, t = Some q ∧ q < length (heap st)) (elems (timers s)) ∧
  Forall (λ g, ∃ q, sent g = Some q ∧ q < length (heap st)) (queue_ch s).


(** The timer at [p] is out of reach: neither in the backing array nor on
    its way to it; [f] is what it has fired. *)
Record absent (p : ptr) (f : list Time) (st : state) : Prop := mkAbsent {
  ab_heap : p < length (heap st);
  ab_fires : fires_of p st = f;
  ab_live : ∀ s, _scheduler st = Some s →
                 (Some p ∉ arr (timers s)) ∧
                 Forall (λ g, sent g ≠ Some p) (queue_ch s)
}.

(** The state a tick of the timer at [q] leaves, [r] being what the tick
    did. *)
Definition ticked_state (q : ptr) (now : Time) (r : ticked object)
    (st : state) : state :=
  let st1 := set_world (world_after r)
               (set_heap (<[q := after r]> (heap st)) st) in
  if called r then set_fires (fires st1 ++ [(q, now)]) st1 else st1.

(** The state a receive from the goroutine [g], the [k]-th on the queue,
    leaves. *)
Definition received_state (k : nat) (g : sender) (s : scheduler)
    (st : state) : state :=
  set_scheduler
    (Some (mkScheduler (append (timers s) [sent g]) (delete k (queue_ch s))
                       (polling s)))
    (set_clock (Z.max (clock st) (wake g)) st).

(** The interval timer at [p] is not stopped, and it has fired more than
    [base] times or is still due at [c0], a time the clock has reached. *)
Definition due_or_fired (p : ptr) (base : nat) (c0 : Time) (st : state)
  : Prop :=
  ∃ T (x : IntervalTimer T),
    heap st !! p = Some (ObjInterval x) ∧ it_s x = false ∧
    base ≤ length (fires_of p st) ∧
    (length (fires_of p st) = base → (it_n x < c0)%Z) ∧
    (c0 ≤ clock st)%Z.

End Model.

Arguments mkIntervalTimer {World T}.
Arguments it_c {World T}. Arguments it_i {World T}. Arguments it_n {World T}.
Arguments it_fn {World T}. Arguments it_t {World T}. Arguments it_s {World T}.
Arguments mkOneTimer {World T}.
Arguments ot_c {World T}. Arguments ot_fn {World T}. Arguments ot_t {World T}.
Arguments mkTicked {World A}.
Arguments after {World A}. Arguments world_after {World A}.
Arguments called {World A}. Arguments panicked {World A}.
Arguments Returns {A} a.
Arguments BlocksOnSend {A} a.

(** ** Callbacks and runtime of the scenarios *)

(** The world of the scenarios is the results list the callbacks append
    to. *)
Definition results : Type := list string.

Definition record_payload : @func results string :=
  λ v w, (w ++ [v], None).

(** A callback that panics with its payload. *)
Definition faulting : @func results string :=
  λ v w, (w, Some v).

(** Growth of a small slice: twice the old capacity. *)
Definition doubling (old needed : nat) : nat := 2 * old.

(** A one-shot timer registered without delay and received by [poll]. *)
Definition one_shot_live : @state results :=
  run doubling
    [CallNewOneTimer record_payload "a" None; PollRound (SelQueue 0)]
    (boot [] [5; 5; 5; 5]%N).

(** Two one-shot timers registered with a delay of 5 and received in that
    order; the callback of the first one panics. *)
Definition fault_live : @state results :=
  run doubling
    [CallNewOneTimer faulting "boom" (Some 5%Z);
     CallNewOneTimer record_payload "b" (Some 5%Z);
     PollRound (SelQueue 0); PollRound (SelQueue 0)]
    (boot [] [1; 1; 1; 1; 1; 1]%N).

(** The same after the sweep in which the first callback has panicked. *)
Definition fault_recovered : @state results :=
  step doubling (PollRound SelDefault) fault_live.


(** A one-shot timer registered without delay and not yet received. *)
Definition one_shot_queued : @state results :=
  run doubling [CallNewOneTimer record_payload "a" None]
      (boot [] [5; 5; 5; 5]%N).

(** An interval timer with interval 20 registered with a delay of 30 and
    received: the clock is at 32 and the timer is due since 22. *)
Definition interval_live : @state results :=
  run doubling
    [CallNewIntervalTimer record_payload "1" (Some 30%Z) 20%Z;
     PollRound (SelQueue 0)]
    (boot [] [1; 1; 9; 9; 9; 9]%N).

(** * Properties *)

(** ** Timer variants *)

Section TimerProperties.
Context {World : Type}.
Implicit Types w : World.

Lemma IntervalTimer_tick_early {T} (self : IntervalTimer T) (t : Time) w :
  (t ≤ it_n self)%Z → IntervalTimer_tick self t w = mkTicked self w false None.
Proof.
  intros Hle. unfold IntervalTimer_tick, Time_After.
  rewrite bool_decide_eq_false_2; [reflexivity | lia].
Qed.

Lemma IntervalTimer_tick_due {T} (self : IntervalTimer T) (t : Time) w :
  (it_n self < t)%Z →
  IntervalTimer_tick self t w =
    match it_fn self (it_t self) w with
    | (w', None) => mkTicked (set_n self (Time_Add t (it_i self))) w' true None
    | (w', Some v) => mkTicked self w' true (Some v)
    end.
Proof.
  intros Hlt. unfold IntervalTimer_tick, Time_After.
  rewrite bool_decide_eq_true_2; [reflexivity | lia].
Qed.




(** C8. A one-shot timer reports no interval and reports itself finished,
    and its [tick] invokes the callback with the bound payload whatever
    [now] is; the timer itself is left as it was. *)
Theorem OneTimer_capabilities {T} (self : OneTimer T) (now now' : Time) w :
  OneTimer_getInterval self = None ∧
  OneTimer_getStop self = true ∧
  called (OneTimer_tick self now w) = true ∧
  world_after (OneTimer_tick self now w) = (ot_fn self (ot_t self) w).1 ∧
  panicked (OneTimer_tick self now w) = (ot_fn self (ot_t self) w).2 ∧
  after (OneTimer_tick self now w) = self ∧
  OneTimer_tick self now w = OneTimer_tick self now' w.
Proof.
  unfold OneTimer_getInterval, OneTimer_getStop, OneTimer_tick.
  destruct (ot_fn self (ot_t self) w) as [w' r]. simpl. repeat split.
Qed.

(** C9. [IntervalTimer.tick(now)] leaves the creation time, the interval,
    the callback, the payload and the stop flag as they were; [nextDue] is
    the only field it can change, and it changes it only when it fires. *)
Theorem IntervalTimer_tick_frame {T} (self : IntervalTimer T) (now : Time) w :
  let r := IntervalTimer_tick self now w in
  it_c (after r) = it_c self ∧
  it_i (after r) = it_i self ∧
  it_fn (after r) = it_fn self ∧
  it_t (after r) = it_t self ∧
  it_s (after r) = it_s self ∧
  after r = set_n self (it_n (after r)) ∧
  (it_n (after r) = it_n self ∨ called r = true).
Proof.
  intros r. subst r. unfold IntervalTimer_tick.
  destruct (Time_After now (it_n self)).
  - destruct (it_fn self (it_t self) w) as [w' [v|]]; simpl.
    + destruct self; simpl. repeat split; auto.
    + repeat split; auto.
  - simpl. destruct self; simpl. repeat split; auto.
Qed.

End TimerProperties.

(** ** Slices and the removal loop *)

Section SliceProperties.
Context (growcap : nat → nat → nat).

Lemma append_len (a : slice) vs :
  len (append growcap a vs) = len a + length vs.
Proof. unfold append. case_decide; reflexivity. Qed.

Lemma append_cap (a : slice) vs :
  len a ≤ cap a →
  cap a ≤ cap (append growcap a vs) ∧
  len (append growcap a vs) ≤ cap (append growcap a vs).
Proof.
  intros Hwf. unfold append, cap in *. case_decide; simpl.
  - rewrite !length_app, length_take, length_drop. lia.
  - rewrite !length_app, length_take, length_replicate. lia.
Qed.

Lemma append_elems (a : slice) vs :
  len a ≤ cap a → elems (append growcap a vs) = elems a ++ vs.
Proof.
  intros Hwf. unfold append, elems, cap in *.
  assert (Hl : length (take (len a) (arr a) ++ vs) = len a + length vs).
  { rewrite length_app, length_take. lia. }
  case_decide; simpl; rewrite app_assoc, take_app_length'; auto.
Qed.

Lemma append_arr_elem_of (a : slice) vs x :
  x ∈ arr (append growcap a vs) → x ∈ arr a ∨ x ∈ vs ∨ x = None.
Proof.
  unfold append. case_decide; simpl; rewrite !elem_of_app.
  - intros [H1|[H1|H1]]; auto.
    + left. eapply subseteq_take; eauto.
    + left. eapply subseteq_drop; eauto.
  - intros [H1|[H1|H1]]; auto.
    + left. eapply subseteq_take; eauto.
    + right; right. by apply elem_of_replicate_inv in H1.
Qed.

(** One removal step: the slice becomes the first [idx] cells followed by
    the first [idx + 1] cells. *)
Lemma remove_at_ok (tm : slice) idx :
  S idx ≤ cap tm →
  ∃ tm', remove_at growcap idx tm = Ok tm' ∧
         elems tm' = take idx (arr tm) ++ take (S idx) (arr tm) ∧
         len tm' = 2 * idx + 1 ∧
         cap tm ≤ cap tm' ∧ len tm' ≤ cap tm' ∧
         (∀ x, x ∈ arr tm' → x ∈ arr tm ∨ x = None).
Proof.
  intros Hcap. unfold remove_at, reslice.
  rewrite decide_True by lia. rewrite decide_True by lia.
  eexists; split; [reflexivity|].
  set (a := mkSlice (arr tm) idx).
  assert (Hwf : len a ≤ cap a) by (unfold cap in *; simpl; lia).
  assert (Hlen : length (elems (mkSlice (arr tm) (idx + 1))) = S idx).
  { unfold elems, cap in *; simpl. rewrite length_take. lia. }
  split; [|split; [|split; [|split]]].
  - rewrite append_elems by exact Hwf. unfold elems; simpl.
    by replace (idx + 1) with (S idx) by lia.
  - rewrite append_len, Hlen. simpl. lia.
  - apply (append_cap a _ Hwf).
  - apply (append_cap a _ Hwf).
  - intros x Hx. apply append_arr_elem_of in Hx as [Hx|[Hx|Hx]]; auto.
    left. unfold elems in Hx; simpl in Hx. eapply subseteq_take; eauto.
Qed.

Lemma remove_all_ok (del : list nat) (tm : slice) :
  Forall (λ idx, S idx ≤ cap tm) del →
  len tm ≤ cap tm →
  ∃ tm', remove_all growcap del tm = Ok tm' ∧
         len tm' = default (len tm) ((λ idx, 2 * idx + 1) <$> last del) ∧
         cap tm ≤ cap tm' ∧ len tm' ≤ cap tm' ∧
         (∀ x, x ∈ arr tm' → x ∈ arr tm ∨ x = None).
Proof.
  revert tm. induction del as [|idx del IH]; intros tm Hdel Hwf; simpl.
  { eexists; repeat split; eauto. }
  apply Forall_cons in Hdel as [Hidx Hdel].
  destruct (remove_at_ok tm idx Hidx) as (tm1 & -> & _ & Hl1 & Hc1 & Hw1 & He1).
  destruct (IH tm1) as (tm' & -> & Hl & Hc & Hw & He); [|exact Hw1|].
  { eapply Forall_impl; [exact Hdel|]. simpl; intros; lia. }
  eexists; split; [reflexivity|]. repeat split; try lia; auto.
  - rewrite Hl. destruct del as [|idx' del]; simpl; [lia|].
    rewrite !last_cons. by destruct (last del).
  - intros x Hx. apply He in Hx as [Hx|Hx]; auto.
Qed.

(** C1 (what the removal loop does).  After the removal loop has run over
    the marked indices of a live set, the live set has [2 * idx + 1] entries,
    where [idx] is the last marked index: the number of entries does not
    depend on how many indices were marked.  When [idx] alone is marked, the
    first [idx] entries are followed by the first [idx + 1] entries again, so
    the marked entry stays and the entries behind it go. *)
Theorem remove_all_length (tm : slice) (del : list nat) (idx : nat) :
  len tm ≤ cap tm →
  Forall (λ j, j < len tm) (del ++ [idx]) →
  ∃ tm' tm1,
    remove_all growcap (del ++ [idx]) tm = Ok tm' ∧
    length (elems tm') = 2 * idx + 1 ∧
    remove_all growcap [idx] tm = Ok tm1 ∧
    elems tm1 = take idx (elems tm) ++ take (S idx) (elems tm).
Proof.
  intros Hwf Hdel.
  destruct (remove_all_ok (del ++ [idx]) tm) as (tm' & Hr & Hl & _ & Hw & _);
    [|exact Hwf|].
  { eapply Forall_impl; [exact Hdel|]. simpl; intros; lia. }
  apply Forall_app in Hdel as [_ Hidx]. rewrite Forall_singleton in Hidx.
  destruct (remove_at_ok tm idx) as (tm1 & Hr1 & He1 & _); [lia|].
  exists tm', tm1. split; [exact Hr|]. rewrite last_snoc in Hl. simpl in Hl.
  split; [|split].
  - unfold elems, cap in *. rewrite length_take. lia.
  - simpl. by rewrite Hr1.
  - rewrite He1. unfold elems. rewrite !take_take. f_equal; f_equal; lia.
Qed.

End SliceProperties.

(** ** Reasoning about the monad *)

Section WpRules.
Context {World : Type}.
Implicit Types st : @state World.

Lemma wp_bind {A B} (m : M A) (k : A → M B) Q E st :
  wp (bind m k) Q E st ↔ wp m (λ a, wp (k a) Q E) E st.
Proof. unfold wp, bind. by destruct (m st) as [st' [a|v]]. Qed.

Lemma wp_ret {A} (a : A) Q E st : wp (ret a) Q E st ↔ Q a st.
Proof. reflexivity. Qed.

Lemma wp_mono {A} (m : M A) (Q Q' : A → state → Prop) (E E' : string → state → Prop) st :
  (∀ a st', Q a st' → Q' a st') → (∀ v st', E v st' → E' v st') →
  wp m Q E st → wp m Q' E' st.
Proof. unfold wp. destruct (m st) as [st' [a|v]]; eauto. Qed.

Lemma wp_lift {A} (r : res A) Q E st :
  wp (lift r) Q E st ↔ match r with Ok a => Q a st | Panic v => E v st end.
Proof. reflexivity. Qed.

Lemma wp_time_Now Q E st :
  wp time_Now Q E st ↔ Q (next_time st) (after_now st).
Proof. reflexivity. Qed.

Lemma wp_load_s (s : scheduler) Q E st :
  _scheduler st = Some s → wp load_s Q E st ↔ Q s st.
Proof. intros Hs. unfold wp, load_s. by rewrite Hs. Qed.

Lemma wp_store_timers (s : scheduler) tm Q E st :
  _scheduler st = Some s →
  wp (store_timers tm) Q E st ↔
  Q tt (set_scheduler (Some (mkScheduler tm (queue_ch s) (polling s))) st).
Proof. intros Hs. unfold wp, store_timers, bind, load_s. by rewrite Hs. Qed.

Lemma wp_deref p (o : object) Q E st :
  heap st !! p = Some o → wp (deref (Some p)) Q E st ↔ Q (p, o) st.
Proof. intros Hp. unfold wp, deref. by rewrite Hp. Qed.

Lemma wp_timer_getInterval p (o : object) Q E st :
  heap st !! p = Some o →
  wp (timer_getInterval (Some p)) Q E st ↔ Q (object_getInterval o) st.
Proof.
  intros Hp. unfold timer_getInterval.
  rewrite wp_bind, (wp_deref p o) by exact Hp. reflexivity.
Qed.

Lemma wp_timer_getStop p (o : object) Q E st :
  heap st !! p = Some o →
  wp (timer_getStop (Some p)) Q E st ↔ Q (object_getStop o) st.
Proof.
  intros Hp. unfold timer_getStop.
  rewrite wp_bind, (wp_deref p o) by exact Hp. reflexivity.
Qed.

Lemma wp_timer_tick p (o : object) now Q E st :
  heap st !! p = Some o →
  wp (timer_tick (Some p) now) Q E st ↔
  let r := object_tick o now (world st) in
  let st1 := set_world (world_after r)
               (set_heap (<[p := after r]> (heap st)) st) in
  let st2 := if called r then set_fires (fires st1 ++ [(p, now)]) st1
             else st1 in
  match panicked r with None => Q tt st2 | Some v => E v st2 end.
Proof.
  intros Hp. unfold timer_tick. rewrite wp_bind, (wp_deref p o) by exact Hp.
  unfold wp. simpl. by destruct (panicked _).
Qed.

Lemma run_cons growcap (e : event) es st :
  run growcap (e :: es) st = run growcap es (step growcap e st).
Proof. reflexivity. Qed.

Lemma run_app growcap (es1 es2 : list event) st :
  run growcap (es1 ++ es2) st = run growcap es2 (run growcap es1 st).
Proof. unfold run. apply foldl_app. Qed.

(** One trip round the loop in terms of its [select]. *)
Lemma poll_step_select growcap sel st (s : scheduler) :
  _scheduler st = Some s → polling s = true → ready sel st = true →
  poll_step growcap sel st =
    match poll_select growcap sel st with
    | (st', Ok false) => st'
    | (st', Ok true) => set_scheduler None st'
    | (st', Panic v) =>
        poll_returned
          (set_stdout (stdout st' ++ ["recovered from panic: " +:+ v]) st')
    end.
Proof.
  intros Hs Hpoll Hready. unfold poll_step. rewrite Hs, Hpoll, Hready. simpl.
  unfold poll_round, deferred_recover, bind.
  destruct (poll_select growcap sel st) as [st' [[|]|v]]; reflexivity.
Qed.

End WpRules.

(** ** The sweep of a lone one-shot timer *)

Section OneShotProperties.
Context {World : Type} (growcap : nat → nat → nat).
Implicit Types st : @state World.

Lemma lone_one_shot_sweep p st :
  lone_one_shot p st →
  lone_one_shot p (poll_step growcap SelDefault st) ∧
  ∃ now, fires_of p (poll_step growcap SelDefault st) = fires_of p st ++ [now].
Proof.
  intros (s & T & x & Hs & Hpoll & Hel & Hwf & Hp & Hret).
  assert (Hlen : len (timers s) = 1).
  { apply (f_equal length) in Hel. unfold elems, cap in *.
    rewrite length_take in Hel. simpl in Hel. lia. }
  destruct (remove_at_ok growcap (timers s) 0) as (tm' & Hrm & Hel' & _ & _ & Hwf' & _);
    [lia|].
  assert (Hel1 : elems tm' = [Some p]).
  { rewrite Hel'. simpl. unfold elems in Hel. rewrite Hlen in Hel. exact Hel. }
  assert (Hsel : wp (poll_select growcap SelDefault)
            (λ b st3, b = false ∧
               _scheduler st3 = Some (mkScheduler tm' (queue_ch s) (polling s)) ∧
               heap st3 = heap st ∧ ∃ now, fires st3 = fires st ++ [(p, now)])
            (λ _ _, False) st).
  { unfold poll_select, sweep. rewrite !wp_bind, (wp_load_s s) by exact Hs.
    rewrite Hel. simpl sweep_from. unfold sweep_one.
    rewrite !wp_bind, (wp_timer_getInterval p _) by exact Hp. simpl.
    rewrite wp_bind, wp_time_Now. cbv beta.
    rewrite wp_bind, (wp_timer_tick p (ObjOne x)) by exact Hp. simpl.
    unfold OneTimer_tick. specialize (Hret (world st)).
    destruct (ot_fn x (ot_t x) (world st)) as [w' r]. simpl in *. subst r.
    rewrite !wp_ret. simpl remove_marked. unfold remove_one.
    rewrite !wp_bind, (wp_load_s s) by exact Hs. cbv beta.
    rewrite wp_bind, Hrm, wp_lift.
    rewrite (wp_store_timers s) by exact Hs. rewrite !wp_ret. simpl.
    rewrite list_insert_id by exact Hp. eauto. }
  rewrite (poll_step_select growcap SelDefault st s Hs Hpoll) by reflexivity.
  unfold wp in Hsel.
  destruct (poll_select growcap SelDefault st) as [st3 [b|v]]; [|done].
  destruct Hsel as (-> & Hs3 & Hh3 & now & Hf3). split.
  - exists (mkScheduler tm' (queue_ch s) (polling s)), T, x. simpl.
    rewrite Hh3. repeat split; auto.
  - exists now. unfold fires_of. rewrite Hf3, filter_app, fmap_app.
    by rewrite filter_cons_True.
Qed.

(** C3 (what the code does).  A one-shot timer that is alone in the live set
    is never taken out of it: each sweep invokes its callback once more, so
    after [k] sweeps it has fired [k] more times. *)
Theorem one_shot_fires_every_sweep (p : ptr) st (k : nat) :
  lone_one_shot p st →
  lone_one_shot p (run growcap (replicate k (PollRound SelDefault)) st) ∧
  length (fires_of p (run growcap (replicate k (PollRound SelDefault)) st)) =
    length (fires_of p st) + k.
Proof.
  revert st. induction k as [|k IH]; intros st Hst.
  { simpl. split; [exact Hst | lia]. }
  destruct (lone_one_shot_sweep p st Hst) as (Hst' & now & Hf).
  destruct (IH _ Hst') as (Hk & Hlen).
  change (replicate (S k) (PollRound SelDefault))
    with (@PollRound World SelDefault :: replicate k (PollRound SelDefault)).
  rewrite run_cons. split; [exact Hk|].
  change (step growcap (PollRound SelDefault) st)
    with (poll_step growcap SelDefault st).
  rewrite Hlen, Hf, length_app. simpl. lia.
Qed.

End OneShotProperties.

(** ** A fault during the sweep *)

Section FaultProperties.
Context {World : Type} (growcap : nat → nat → nat).
Implicit Types st : @state World.

Lemma bind_panic_inv {A B} (m : M A) (k : A → M B) st st1 v :
  bind m k st = (st1, Panic v) →
  m st = (st1, Panic v) ∨ ∃ a st', m st = (st', Ok a) ∧ k a st' = (st1, Panic v).
Proof.
  unfold bind. destruct (m st) as [st' [a|v']]; intros H.
  - right. eauto.
  - left. congruence.
Qed.

(** The sweep leaves the scheduler and the output alone; it marks indices
    of the live set only. *)
Lemma sweep_one_frame i t del st :
  wp (sweep_one i t del)
     (λ del' st', _scheduler st' = _scheduler st ∧ stdout st' = stdout st ∧
                  (del' = del ∨ del' = del ++ [i]))
     (λ _ st', _scheduler st' = _scheduler st ∧ stdout st' = stdout st) st.
Proof.
  unfold sweep_one, timer_getInterval, timer_getStop, timer_tick.
  rewrite !wp_bind. unfold wp at 1, deref.
  destruct t as [p|]; [|done]. destruct (heap st !! p) as [o|] eqn:Hp; [|done].
  rewrite wp_ret. simpl. destruct (object_getInterval o).
  - rewrite !wp_bind. rewrite (wp_deref p o) by exact Hp. rewrite wp_ret. simpl.
    destruct (object_getStop o).
    + rewrite wp_ret. auto.
    + rewrite wp_bind, wp_time_Now. cbv beta. rewrite !wp_bind.
      rewrite (wp_deref p o) by exact Hp. simpl. unfold wp.
      destruct (called _), (panicked _); simpl; auto.
  - rewrite wp_bind, wp_time_Now. cbv beta. rewrite !wp_bind.
    rewrite (wp_deref p o) by exact Hp. simpl. unfold wp.
    destruct (called _), (panicked _); simpl; auto.
Qed.

Lemma sweep_from_frame ts i del st :
  Forall (λ j, j < i) del →
  wp (sweep_from i ts del)
     (λ del' st', _scheduler st' = _scheduler st ∧ stdout st' = stdout st ∧
                  Forall (λ j, j < i + length ts) del')
     (λ _ st', _scheduler st' = _scheduler st ∧ stdout st' = stdout st) st.
Proof.
  revert i del st. induction ts as [|t ts IH]; intros i del st Hdel; simpl.
  { rewrite wp_ret. repeat split; auto.
    eapply Forall_impl; [exact Hdel|]. simpl; intros; lia. }
  rewrite wp_bind. eapply wp_mono; [| |apply sweep_one_frame].
  - intros del' st' (Hs & Ho & Hd). simpl in *.
    eapply wp_mono; [| |apply (IH (S i) del' st')].
    + intros del'' st'' (Hs' & Ho' & Hd'). simpl in *.
      repeat split; try congruence.
      eapply Forall_impl; [exact Hd'|]. simpl; intros; lia.
    + intros v st'' (Hs' & Ho'). simpl in *. split; congruence.
    + destruct Hd as [->| ->].
      * eapply Forall_impl; [exact Hdel|]. simpl; intros; lia.
      * apply Forall_app; split; [|apply Forall_singleton; lia].
        eapply Forall_impl; [exact Hdel|]. simpl; intros; lia.
  - intros v st' H. exact H.
Qed.

(** A sweep that panics is the sweep of the timers before the faulting one
    followed by the faulting call: no timer behind it is looked at. *)
Lemma sweep_from_panic ts i del st st1 v :
  sweep_from i ts del st = (st1, Panic v) →
  ∃ pre t post del' st0,
    ts = pre ++ t :: post ∧
    sweep_from i pre del st = (st0, Ok del') ∧
    sweep_one (i + length pre) t del' st0 = (st1, Panic v).
Proof.
  revert i del st. induction ts as [|t ts IH]; intros i del st H; simpl in H.
  { discriminate. }
  apply bind_panic_inv in H as [H|(del' & st' & H1 & H2)].
  - exists [], t, ts, del, st. simpl. rewrite Nat.add_0_r. auto.
  - apply IH in H2 as (pre & t' & post & del'' & st0 & -> & H3 & H4).
    exists (t :: pre), t', post, del'', st0. simpl. repeat split.
    + unfold bind. rewrite H1. exact H3.
    + replace (i + S (length pre)) with (S i + length pre) by lia. exact H4.
Qed.

(** The removal loop in the monad is the removal loop on the slice. *)
Lemma wp_remove_marked del (s : scheduler) tm' Q E st :
  _scheduler st = Some s →
  remove_all growcap del (timers s) = Ok tm' →
  wp (remove_marked growcap del) Q E st ↔
  Q tt (set_scheduler (Some (mkScheduler tm' (queue_ch s) (polling s))) st).
Proof.
  revert s st. induction del as [|idx del IH]; intros s st Hs Hrm; simpl in *.
  { injection Hrm as <-. rewrite wp_ret. destruct st, s; simpl in *.
    by subst. }
  destruct (remove_at growcap idx (timers s)) as [tm1|] eqn:H1; [|done].
  unfold remove_one. rewrite !wp_bind, (wp_load_s s) by exact Hs. cbv beta.
  rewrite wp_bind, H1, wp_lift, (wp_store_timers s) by exact Hs.
  rewrite (IH (mkScheduler tm1 (queue_ch s) (polling s))); [|done|done].
  simpl. by destruct st.
Qed.

(** Once [poll] has returned through the recovered panic, no trip round the
    loop happens any more. *)
Lemma poll_step_returned sel st (s : scheduler) :
  _scheduler st = Some s → polling s = false → poll_step growcap sel st = st.
Proof. intros Hs Hp. unfold poll_step. by rewrite Hs, Hp. Qed.

Lemma run_poll_returned (sels : list selected) st (s : scheduler) :
  _scheduler st = Some s → polling s = false →
  run growcap (PollRound <$> sels) st = st.
Proof.
  intros Hs Hp. induction sels as [|sel sels IH]; [reflexivity|].
  rewrite fmap_cons, run_cons. simpl step.
  by rewrite (poll_step_returned sel st s).
Qed.

(** A panic of the default branch comes from the sweep, not from the
    removal loop. *)
Lemma poll_select_panic st (s : scheduler) st1 v :
  _scheduler st = Some s → len (timers s) ≤ cap (timers s) →
  poll_select growcap SelDefault st = (st1, Panic v) →
  sweep_from 0 (elems (timers s)) [] st = (st1, Panic v).
Proof.
  intros Hs Hwf H. unfold poll_select in H.
  apply bind_panic_inv in H as [H|(a & st' & _ & H)]; [|discriminate].
  unfold sweep in H.
  apply bind_panic_inv in H as [H|(s' & st' & H1 & H)].
  { unfold load_s in H. rewrite Hs in H. discriminate. }
  unfold load_s in H1. rewrite Hs in H1. injection H1 as <- <-.
  apply bind_panic_inv in H as [H|(del & st' & H1 & H)]; [exact H|].
  exfalso.
  pose proof (sweep_from_frame (elems (timers s)) 0 [] st (Forall_nil_2 _))
    as Hfr.
  unfold wp in Hfr. rewrite H1 in Hfr. destruct Hfr as (Hs' & _ & Hdel).
  rewrite Hs in Hs'.
  destruct (remove_all_ok growcap del (timers s)) as (tm' & Hrm & _);
    [|exact Hwf|].
  { eapply Forall_impl; [exact Hdel|]. simpl. intros j Hj.
    unfold elems, cap in *. rewrite length_take in Hj. lia. }
  pose proof (wp_remove_marked del s tm' (λ _ _, True) (λ _ _, False) st'
                Hs' Hrm) as Hwp.
  unfold wp in Hwp. rewrite H in Hwp. tauto.
Qed.

(** C2 (as amended).  When the sweep panics, the run of the default branch
    is the sweep of the timers before the faulting one followed by the
    faulting call, and nothing behind it; the deferred function recovers the
    panic, prints the diagnostic and [poll] returns without a panic of its
    own.  The scheduler stays where it was, with its live set and queue
    untouched and without a running loop, and no later trip round the loop
    changes anything. *)
Theorem sweep_fault_recovered st (s : scheduler) st1 v :
  _scheduler st = Some s → polling s = true →
  len (timers s) ≤ cap (timers s) →
  poll_select growcap SelDefault st = (st1, Panic v) →
  (∃ pre t post del st0,
     elems (timers s) = pre ++ t :: post ∧
     sweep_from 0 pre [] st = (st0, Ok del) ∧
     sweep_one (length pre) t del st0 = (st1, Panic v)) ∧
  poll_round growcap SelDefault st =
    (set_stdout (stdout st ++ ["recovered from panic: " +:+ v]) st1, Ok None) ∧
  poll_step growcap SelDefault st =
    poll_returned
      (set_stdout (stdout st ++ ["recovered from panic: " +:+ v]) st1) ∧
  _scheduler (poll_step growcap SelDefault st) =
    Some (mkScheduler (timers s) (queue_ch s) false) ∧
  ∀ sels, run growcap (PollRound <$> sels) (poll_step growcap SelDefault st) =
          poll_step growcap SelDefault st.
Proof.
  intros Hs Hpoll Hwf Hsel.
  pose proof (poll_select_panic st s st1 v Hs Hwf Hsel) as Hsw.
  pose proof (sweep_from_frame (elems (timers s)) 0 [] st (Forall_nil_2 _))
    as Hfr.
  unfold wp in Hfr. rewrite Hsw in Hfr. destruct Hfr as (Hs1 & Hout).
  rewrite Hs in Hs1.
  assert (Hstep : poll_step growcap SelDefault st =
            poll_returned
              (set_stdout (stdout st ++ ["recovered from panic: " +:+ v]) st1)).
  { rewrite (poll_step_select growcap SelDefault st s Hs Hpoll) by reflexivity.
    by rewrite Hsel, Hout. }
  assert (Hsched : _scheduler (poll_step growcap SelDefault st) =
            Some (mkScheduler (timers s) (queue_ch s) false)).
  { rewrite Hstep. unfold poll_returned. simpl. by rewrite Hs1. }
  split; [|split; [|split; [|split]]]; auto.
  - apply sweep_from_panic in Hsw
      as (pre & t & post & del & st0 & Hts & Hpre & Hone).
    exists pre, t, post, del, st0. auto.
  - unfold poll_round, deferred_recover, bind. rewrite Hsel. simpl.
    by rewrite Hout.
  - intros sels. eapply run_poll_returned; [exact Hsched|reflexivity].
Qed.

End FaultProperties.

(** ** Registration *)

Section RegistrationProperties.
Context {World : Type} (growcap : nat → nat → nat).
Implicit Types st : @state World.

Lemma next_time_ge st : (clock st ≤ next_time st)%Z.
Proof. unfold next_time. destruct (ticks st); lia. Qed.

Lemma clock_after_now st : clock (after_now st) = next_time st.
Proof. reflexivity. Qed.

Lemma queue_eq t delay st :
  queue t delay st =
    (enqueued (queued t delay (clock st)) st,
     Ok (match delay with Some _ => Returns tt | None => BlocksOnSend tt end)).
Proof.
  unfold queue, enqueued, queued, current_scheduler, bind, instance,
    send_on_queue, bind, load_s, store_s.
  destruct st as [h w c k [s|] f o], delay as [d|]; simpl;
    rewrite ?Z.add_0_r; reflexivity.
Qed.

Lemma NewIntervalTimer_eq {T} (fn : func T) v delay interval st :
  NewIntervalTimer fn v delay interval st =
    (enqueued (queued (Some (length (heap st))) delay
                      (next_time (after_now st)))
       (set_heap
          (heap st ++
           [ObjInterval
              (mkIntervalTimer (next_time st) interval
                 (next_time (after_now st) + interval)%Z fn v false)])
          (after_now (after_now st))),
     Ok (match delay with
         | Some _ => Returns (length (heap st))
         | None => BlocksOnSend (length (heap st))
         end)).
Proof.
  unfold NewIntervalTimer, bind, time_Now, new. simpl.
  rewrite queue_eq. simpl. by destruct delay.
Qed.

Lemma NewOneTimer_eq {T} (fn : func T) v delay st :
  NewOneTimer fn v delay st =
    (enqueued (queued (Some (length (heap st))) delay (next_time st))
       (set_heap (heap st ++ [ObjOne (mkOneTimer (next_time st) fn v)])
                 (after_now st)),
     Ok (match delay with
         | Some _ => Returns (length (heap st))
         | None => BlocksOnSend (length (heap st))
         end)).
Proof.
  unfold NewOneTimer, bind, time_Now, new. simpl.
  rewrite queue_eq. simpl. by destruct delay.
Qed.

Lemma enqueued_scheduler g st :
  _scheduler (enqueued g st) =
    Some (mkScheduler (timers (current_scheduler st))
            (queue_ch (current_scheduler st) ++ [g])
            (polling (current_scheduler st))).
Proof. reflexivity. Qed.

(** A scheduler whose loop has returned stays as it is, except that
    goroutines keep lining up on its queue. *)
Lemma step_poll_returned (e : event) st (s : scheduler) :
  _scheduler st = Some s → polling s = false →
  ∃ more, _scheduler (step growcap e st) =
            Some (mkScheduler (timers s) (queue_ch s ++ more) false).
Proof.
  intros Hs Hp. destruct e as [T fn v delay|T fn v delay interval|sel]; simpl.
  - rewrite NewOneTimer_eq. cbn [fst]. rewrite enqueued_scheduler.
    unfold current_scheduler. simpl. rewrite Hs. simpl. rewrite Hp. eauto.
  - rewrite NewIntervalTimer_eq. cbn [fst]. rewrite enqueued_scheduler.
    unfold current_scheduler. simpl. rewrite Hs. simpl. rewrite Hp. eauto.
  - rewrite (poll_step_returned growcap sel st s Hs Hp), Hs.
    exists []. rewrite app_nil_r. destruct s; simpl in *. by subst.
Qed.

Lemma run_poll_returned_queue (es : list event) st (s : scheduler) :
  _scheduler st = Some s → polling s = false →
  ∃ more, _scheduler (run growcap es st) =
            Some (mkScheduler (timers s) (queue_ch s ++ more) false).
Proof.
  revert st s. induction es as [|e es IH]; intros st s Hs Hp.
  { exists []. rewrite app_nil_r. simpl. rewrite Hs. destruct s; simpl in *.
    by subst. }
  rewrite run_cons.
  destruct (step_poll_returned e st s Hs Hp) as (more & Hs').
  destruct (IH _ _ Hs' eq_refl) as (more' & Hs''). simpl in Hs''.
  exists (more ++ more'). by rewrite app_assoc.
Qed.

(** C6 (what the code does).  Without a delay both constructors end parked
    on the send to the scheduler's queue: the call has not returned, and the
    calling goroutine waits on the queue for [poll] to receive the timer.
    With a delay both return at once.  When the loop of [poll] has returned
    after a recovered panic, the caller of a constructor without delay stays
    parked whatever happens afterwards. *)
Theorem constructor_without_delay_parks {T} (fn : func T) (v : T)
    (interval : Duration) st :
  (NewOneTimer fn v None st).2 = Ok (BlocksOnSend (length (heap st))) ∧
  (NewIntervalTimer fn v None interval st).2 =
    Ok (BlocksOnSend (length (heap st))) ∧
  (∀ d, (NewOneTimer fn v (Some d) st).2 = Ok (Returns (length (heap st))) ∧
        (NewIntervalTimer fn v (Some d) interval st).2 =
          Ok (Returns (length (heap st)))) ∧
  (∃ s', _scheduler (NewOneTimer fn v None st).1 = Some s' ∧
         last (queue_ch s') =
           Some (mkSender (Some (length (heap st))) (next_time st) true)) ∧
  (∀ s, _scheduler st = Some s → polling s = false →
        ∀ es, ∃ s', _scheduler (run growcap es (NewOneTimer fn v None st).1) =
                      Some s' ∧
                    polling s' = false ∧
                    queue_ch s' !! length (queue_ch s) =
                      Some (mkSender (Some (length (heap st))) (next_time st)
                                     true)).
Proof.
  rewrite !NewOneTimer_eq, !NewIntervalTimer_eq. cbn [fst snd].
  split; [reflexivity|]. split; [reflexivity|]. split; [|split].
  - intros d. by rewrite NewOneTimer_eq, NewIntervalTimer_eq.
  - eexists. split; [apply enqueued_scheduler|]. simpl.
    rewrite last_snoc. unfold queued. simpl. by rewrite Z.add_0_r.
  - intros s Hs Hp es.
    set (st1 := enqueued _ _).
    assert (Hs1 : _scheduler st1 =
              Some (mkScheduler (timers s)
                      (queue_ch s ++ [mkSender (Some (length (heap st)))
                                               (next_time st) true]) false)).
    { subst st1. rewrite enqueued_scheduler. unfold current_scheduler. simpl.
      rewrite Hs. simpl. rewrite Hp. unfold queued. simpl.
      by rewrite Z.add_0_r. }
    destruct (run_poll_returned_queue es st1 _ Hs1 eq_refl) as (more & Hrun).
    eexists. split; [exact Hrun|]. split; [reflexivity|]. simpl.
    rewrite <- app_assoc. rewrite lookup_app_r by lia.
    by rewrite Nat.sub_diag.
Qed.

(** C7 (as amended).  [NewIntervalTimer] does not look at the sign of the
    interval: for every interval, construction succeeds and yields a new
    interval timer with that interval, with [nextDue] one interval after
    the time of construction and with the stop flag unset, and the timer is
    handed to [queue]. *)
Theorem NewIntervalTimer_never_rejects {T} (fn : func T) (v : T)
    (delay : option Duration) (interval : Duration) st :
  ∃ st' o c,
    NewIntervalTimer fn v delay interval st = (st', Ok o) ∧
    handle o = length (heap st) ∧
    heap st' = heap st ++
      [ObjInterval (mkIntervalTimer c interval (clock st' + interval)%Z fn v
                                    false)] ∧
    (clock st ≤ c ≤ clock st')%Z ∧
    ∃ s', _scheduler st' = Some s' ∧
          last (queue_ch s') = Some (queued (Some (handle o)) delay (clock st')).
Proof.
  rewrite NewIntervalTimer_eq.
  eexists _, _, (next_time st). split; [reflexivity|].
  split; [by destruct delay|]. split; [reflexivity|]. split.
  - pose proof (next_time_ge st) as H1.
    pose proof (next_time_ge (after_now st)) as H2.
    rewrite clock_after_now in H2. simpl. lia.
  - eexists. split; [apply enqueued_scheduler|]. simpl. rewrite last_snoc.
    by destruct delay.
Qed.



End RegistrationProperties.

(** ** Invariants of the sweep *)

Section SweepInvariant.
Context {World : Type}.
Implicit Types st : @state World.

(** [I] is to hold while the sweep runs, [J] once it has panicked; reading
    the clock keeps [I], and so does a tick at the time the clock shows of a
    timer from the backing array, unless it panics. *)
Context (I J : @state World → Prop) (s : scheduler).
Hypothesis I_after_now : ∀ st, I st → I (after_now st).
Hypothesis I_J : ∀ st, I st → J st.
Hypothesis I_tick : ∀ (t : option nat) st,
  I st → _scheduler st = Some s → t ∈ arr (timers s) →
  wp (timer_tick t (clock st))
     (λ _ st', I st' ∧ _scheduler st' = Some s)
     (λ _ st', J st' ∧ _scheduler st' = Some s) st.

Lemma sweep_one_inv j (t : option nat) del st :
  I st → _scheduler st = Some s → t ∈ arr (timers s) →
  wp (sweep_one j t del)
     (λ _ st', I st' ∧ _scheduler st' = Some s)
     (λ _ st', J st' ∧ _scheduler st' = Some s) st.
Proof.
  intros HI Hs Hin.
  assert (Htick : ∀ del' : list nat,
    wp (bind time_Now (λ now, bind (timer_tick t now) (λ _, ret del')))
       (λ _ st', I st' ∧ _scheduler st' = Some s)
       (λ _ st', J st' ∧ _scheduler st' = Some s) st).
  { intros del'. rewrite wp_bind, wp_time_Now. cbv beta. rewrite wp_bind.
    change (next_time st) with (clock (after_now st)).
    eapply wp_mono; [| |apply (I_tick t (after_now st))]; auto. }
  unfold sweep_one, timer_getInterval, timer_getStop.
  rewrite !wp_bind. unfold wp at 1, deref.
  destruct t as [q|]; [|auto]. destruct (heap st !! q) as [o|] eqn:Hq; [|auto].
  rewrite wp_ret. simpl. destruct (object_getInterval o).
  - rewrite !wp_bind, (wp_deref q o) by exact Hq. rewrite wp_ret. simpl.
    destruct (object_getStop o); [by rewrite wp_ret|]. apply Htick.
  - apply Htick.
Qed.

Lemma sweep_from_inv ts j del st :
  I st → _scheduler st = Some s → Forall (λ t, t ∈ arr (timers s)) ts →
  wp (sweep_from j ts del)
     (λ _ st', I st' ∧ _scheduler st' = Some s)
     (λ _ st', J st' ∧ _scheduler st' = Some s) st.
Proof.
  revert j del st. induction ts as [|t ts IH]; intros j del st HI Hs Hts.
  { simpl. by rewrite wp_ret. }
  apply Forall_cons in Hts as [Ht Hts]. simpl. rewrite wp_bind.
  eapply wp_mono; [| |by apply (sweep_one_inv j t del st)]; [|done].
  intros del' st' (HI' & Hs'). simpl. by apply IH.
Qed.

Lemma elems_in_arr (tm : slice) : Forall (λ t, t ∈ arr tm) (elems tm).
Proof.
  apply Forall_forall. intros x Hx. unfold elems in Hx.
  eapply subseteq_take; eauto.
Qed.

End SweepInvariant.

(** ** The pace of an interval timer *)

Section PacingProperties.
Context {World : Type} (growcap : nat → nat → nat).
Context (p : ptr) (reg : Time) (d i : Duration).
Implicit Types st : @state World.

Lemma fires_of_snoc_eq (f : list (nat * Time)) (t : Time) :
  (filter (λ e, e.1 = p) (f ++ [(p, t)])).*2 =
  (filter (λ e, e.1 = p) f).*2 ++ [t].
Proof. by rewrite filter_app, fmap_app, filter_cons_True. Qed.

Lemma fires_of_snoc_ne (f : list (nat * Time)) (q : nat) (t : Time) :
  q ≠ p →
  (filter (λ e, e.1 = p) (f ++ [(q, t)])).*2 = (filter (λ e, e.1 = p) f).*2.
Proof.
  intros Hne. rewrite filter_app, fmap_app, filter_cons_False by done.
  by rewrite filter_nil, app_nil_r.
Qed.










(** The removal loop puts back into the array only what was there. *)
Lemma remove_at_arr idx (tm tm' : slice) (x : option nat) :
  remove_at growcap idx tm = Ok tm' →
  x ∈ arr tm' → x ∈ arr tm ∨ x = None.
Proof.
  unfold remove_at, reslice. case_decide; [|done]. case_decide; [|done].
  intros [= <-] Hx. apply append_arr_elem_of in Hx as [Hx|[Hx|Hx]]; auto.
  left. unfold elems in Hx. simpl in Hx. eapply subseteq_take; eauto.
Qed.

Lemma remove_marked_arr del st (s : scheduler) :
  _scheduler st = Some s →
  let post := λ st', ∃ tm',
    st' = set_scheduler (Some (mkScheduler tm' (queue_ch s) (polling s))) st ∧
    ∀ x : option nat, x ∈ arr tm' → x ∈ arr (timers s) ∨ x = None in
  wp (remove_marked growcap del) (λ _, post) (λ _, post) st.
Proof.
  revert st s. induction del as [|idx del IH]; intros st s Hs post.
  { simpl. rewrite wp_ret. exists (timers s). split; [|auto].
    destruct st, s; simpl in *. by subst. }
  simpl. unfold remove_one.
  rewrite !wp_bind, (wp_load_s s) by exact Hs. cbv beta.
  rewrite wp_bind, wp_lift.
  destruct (remove_at growcap idx (timers s)) as [tm1|v] eqn:H1.
  - rewrite (wp_store_timers s) by exact Hs.
    eapply wp_mono; [| |apply (IH _ (mkScheduler tm1 (queue_ch s) (polling s)))];
      [| |reflexivity].
    + intros _ st' (tm' & -> & Harr). exists tm'. split; [by destruct st|].
      intros x Hx. apply Harr in Hx as [Hx|Hx]; [|by right].
      simpl in Hx. by apply (remove_at_arr idx (timers s) tm1).
    + intros _ st' (tm' & -> & Harr). exists tm'. split; [by destruct st|].
      intros x Hx. apply Harr in Hx as [Hx|Hx]; [|by right].
      simpl in Hx. by apply (remove_at_arr idx (timers s) tm1).
  - exists (timers s). split; [|auto]. destruct st, s; simpl in *. by subst.
Qed.







End PacingProperties.

(** ** Fresh addresses *)

Section ClosedProperties.
Context {World : Type} (growcap : nat → nat → nat).
Implicit Types st : @state World.












End ClosedProperties.

(** ** Interval timers in a run of the program *)

Section IntervalProperties.
Context {World : Type} (growcap : nat → nat → nat).
Implicit Types st : @state World.




End IntervalProperties.

(** * The scenarios *)

(** C1, at the live set of one timer with index 0 marked: the loop leaves
    the one entry, where the specification has none. *)
Lemma remove_all_length_witness :
  len (mkSlice [Some 0] 1) ≤ cap (mkSlice [Some 0] 1) ∧
  Forall (λ j, j < len (mkSlice [Some 0] 1)) ([] ++ [0]) ∧
  ∃ tm' tm1,
    remove_all doubling ([] ++ [0]) (mkSlice [Some 0] 1) = Ok tm' ∧
    length (elems tm') = 2 * 0 + 1 ∧
    remove_all doubling [0] (mkSlice [Some 0] 1) = Ok tm1 ∧
    elems tm1 = take 0 (elems (mkSlice [Some 0] 1)) ++
                take 1 (elems (mkSlice [Some 0] 1)).
Proof.
  assert (H1 : len (mkSlice [Some 0] 1) ≤ cap (mkSlice [Some 0] 1))
    by (vm_compute; lia).
  assert (H2 : Forall (λ j, j < len (mkSlice [Some 0] 1)) ([] ++ [0]))
    by (repeat constructor).
  split; [exact H1|]. split; [exact H2|].
  exact (remove_all_length doubling (mkSlice [Some 0] 1) [] 0 H1 H2).
Defined.

(** C2, refuted as the specification has it: with two one-shot timers in
    the live set and a first callback that panics, the second timer is not
    ticked in that sweep, the loop of [poll] is gone afterwards, and no later
    trip round the loop ticks the second timer either. *)
Lemma fault_ends_sweep_and_loop :
  (∃ s, _scheduler fault_live = Some s ∧ polling s = true ∧
        elems (timers s) = [Some 0; Some 1]) ∧
  fires_of 0 fault_recovered = [8%Z] ∧
  fires_of 1 fault_recovered = [] ∧
  world fault_recovered = [] ∧
  stdout fault_recovered = ["recovered from panic: boom"] ∧
  alive fault_recovered = false ∧
  ∀ sels, fires_of 1 (run doubling (PollRound <$> sels) fault_recovered) = [].
Proof.
  split; [eexists; repeat split; reflexivity|].
  repeat (split; [reflexivity|]).
  intros sels.
  by rewrite (run_poll_returned doubling sels fault_recovered
                (mkScheduler (mkSlice [Some 0; Some 1] 2) [] false)).
Qed.

(** C2 as amended, at that sweep. *)
Lemma sweep_fault_recovered_witness :
  let s := mkScheduler (mkSlice [Some 0; Some 1] 2) [] true in
  let st1 := (poll_select doubling SelDefault fault_live).1 in
  _scheduler fault_live = Some s ∧ polling s = true ∧
  len (timers s) ≤ cap (timers s) ∧
  poll_select doubling SelDefault fault_live = (st1, Panic "boom") ∧
  poll_round doubling SelDefault fault_live =
    (set_stdout (stdout fault_live ++ ["recovered from panic: " +:+ "boom"])
                st1, Ok None) ∧
  _scheduler (poll_step doubling SelDefault fault_live) =
    Some (mkScheduler (timers s) (queue_ch s) false).
Proof.
  intros s st1.
  assert (H1 : _scheduler fault_live = Some s) by reflexivity.
  assert (H2 : polling s = true) by reflexivity.
  assert (H3 : len (timers s) ≤ cap (timers s)) by (vm_compute; lia).
  assert (H4 : poll_select doubling SelDefault fault_live = (st1, Panic "boom"))
    by reflexivity.
  repeat (split; [assumption|]).
  destruct (sweep_fault_recovered doubling fault_live s st1 "boom" H1 H2 H3 H4)
    as (_ & H5 & _ & H6 & _).
  split; [exact H5|exact H6].
Defined.

(** C3, at a one-shot timer registered without delay: two sweeps, two
    fires. *)
Lemma one_shot_fires_every_sweep_witness :
  lone_one_shot 0 one_shot_live ∧
  length (fires_of 0 (run doubling (replicate 2 (PollRound SelDefault))
                         one_shot_live)) =
    length (fires_of 0 one_shot_live) + 2.
Proof.
  assert (H : lone_one_shot 0 one_shot_live).
  { exists (mkScheduler (mkSlice [Some 0] 1) [] true), string,
      (mkOneTimer 5%Z record_payload "a").
    repeat split; reflexivity. }
  split; [exact H|].
  exact (proj2 (one_shot_fires_every_sweep doubling 0 one_shot_live 2 H)).
Defined.



(** C6, after the recovered panic: a one-shot timer constructed without
    delay leaves its caller parked, whatever [poll] events follow. *)
Lemma constructor_without_delay_parks_witness :
  (NewOneTimer record_payload "c" None fault_recovered).2 =
    Ok (BlocksOnSend 2) ∧
  ∃ s', _scheduler
          (run doubling
             [PollRound (SelQueue 0); PollRound SelDefault;
              PollRound (SelQueue 0)]
             (NewOneTimer record_payload "c" None fault_recovered).1) =
          Some s' ∧
        polling s' = false ∧
        queue_ch s' !! 0 = Some (mkSender (Some 2) 9%Z true).
Proof.
  destruct (constructor_without_delay_parks doubling record_payload "c" 0%Z
              fault_recovered) as (H1 & _ & _ & _ & H5).
  split; [exact H1|].
  exact (H5 (mkScheduler (mkSlice [Some 0; Some 1] 2) [] false)
            eq_refl eq_refl
            [PollRound (SelQueue 0); PollRound SelDefault;
             PollRound (SelQueue 0)]).
Defined.

(** C7, refuted as the specification has it: an interval of zero is
    accepted.  The timer is built and queued, and once live it fires at
    every sweep. *)
Lemma zero_interval_is_accepted :
  let r := NewIntervalTimer record_payload "x" None 0%Z
             (boot [] [2; 2; 2; 2; 2; 2]%N) in
  r.2 = Ok (BlocksOnSend 0) ∧
  heap r.1 = [ObjInterval (mkIntervalTimer 2 0 4 record_payload "x" false)] ∧
  fires_of 0 (run doubling
                [PollRound (SelQueue 0); PollRound SelDefault;
                 PollRound SelDefault; PollRound SelDefault] r.1) =
    [6; 8; 10]%Z.
Proof. repeat split. Qed.


(** * Further properties *)

(** ** Invariants of a run *)

Section StepInvariant.
Context {World : Type} (growcap : nat → nat → nat).
Implicit Types st : @state World.

(** [I] is kept by what the steps of the program are made of: the passing
    of time, a tick of a timer from the backing array, a new slice made of
    cells of the old one, a receive from the queue, the end of the
    scheduler, and the registration of a timer that is [good]. *)
Context (good : @object World → Prop) (I : @state World → Prop).
Hypothesis I_frame : ∀ st st',
  I st → heap st' = heap st → fires st' = fires st →
  _scheduler st' = _scheduler st → (clock st ≤ clock st')%Z → I st'.
Hypothesis I_tick : ∀ q o (s : scheduler) st,
  I st → _scheduler st = Some s → Some q ∈ arr (timers s) →
  heap st !! q = Some o →
  I (ticked_state q (clock st) (object_tick o (clock st) (world st)) st).
Hypothesis I_sched : ∀ st (s : scheduler) tm' b,
  I st → _scheduler st = Some s →
  (∀ x : option nat, x ∈ arr tm' → x ∈ arr (timers s) ∨ x = None) →
  I (set_scheduler (Some (mkScheduler tm' (queue_ch s) b)) st).
Hypothesis I_recv : ∀ st (s : scheduler) k g,
  I st → _scheduler st = Some s → queue_ch s !! k = Some g →
  I (received_state growcap k g s st).
Hypothesis I_stop : ∀ st, I st → I (set_scheduler None st).
Hypothesis I_reg : ∀ st st1 o g,
  I st → good o →
  heap st1 = heap st → fires st1 = fires st →
  _scheduler st1 = _scheduler st → (clock st ≤ clock st1)%Z →
  sent g = Some (length (heap st)) →
  I (enqueued g (set_heap (heap st1 ++ [o]) st1)).

Lemma ticked_state_scheduler q now (r : ticked object) st :
  _scheduler (ticked_state q now r st) = _scheduler st.
Proof. unfold ticked_state. by destruct (called r). Qed.

Lemma inv_tick (t : option nat) st (s : scheduler) :
  I st → _scheduler st = Some s → t ∈ arr (timers s) →
  wp (timer_tick t (clock st))
     (λ _ st', I st' ∧ _scheduler st' = Some s)
     (λ _ st', I st' ∧ _scheduler st' = Some s) st.
Proof.
  intros HI Hs Hin.
  destruct t as [q|]; [|by unfold wp].
  destruct (heap st !! q) as [o|] eqn:Hq;
    [|unfold wp, timer_tick, bind, deref; by rewrite Hq].
  rewrite (wp_timer_tick q o) by exact Hq. cbv zeta.
  pose proof (I_tick q o s st HI Hs Hin Hq) as HI'.
  pose proof (ticked_state_scheduler q (clock st)
                (object_tick o (clock st) (world st)) st) as Hs'.
  rewrite Hs in Hs'. unfold ticked_state in HI', Hs'. cbv zeta in HI', Hs'.
  by destruct (panicked _).
Qed.

Lemma inv_poll_select sel st (s : scheduler) :
  I st → _scheduler st = Some s →
  let post := λ st', I st' ∧ ∃ s', _scheduler st' = Some s' in
  wp (poll_select growcap sel) (λ _, post) (λ _, post) st.
Proof.
  intros HI Hs post. subst post. destruct sel as [|k|]; simpl.
  - rewrite wp_ret. eauto.
  - rewrite wp_bind, (wp_load_s s) by exact Hs.
    destruct (queue_ch s !! k) as [g|] eqn:Hg; [|rewrite wp_ret; eauto].
    unfold wp, bind, time_passed, store_s. simpl. split; [|eauto].
    by apply (I_recv st s k g).
  - unfold sweep. rewrite !wp_bind, (wp_load_s s) by exact Hs. cbv beta.
    rewrite wp_bind.
    eapply wp_mono; [| |apply (sweep_from_inv I I s)];
      auto using elems_in_arr.
    + intros del st' (HI' & Hs'). simpl.
      pose proof (remove_marked_arr growcap del st' s Hs') as Hrm.
      simpl in Hrm.
      assert (Hpost : ∀ st'',
        (∃ tm', st'' = set_scheduler
                         (Some (mkScheduler tm' (queue_ch s) (polling s))) st' ∧
                ∀ x : option nat, x ∈ arr tm' → x ∈ arr (timers s) ∨ x = None) →
        I st'' ∧ ∃ s', _scheduler st'' = Some s').
      { intros st'' (tm' & -> & Harr). split; [|simpl; eauto].
        by apply I_sched. }
      eapply wp_mono; [| |exact Hrm].
      * intros u st'' H. rewrite wp_ret. by apply Hpost.
      * intros u st'' H. by apply Hpost.
    + intros v st' (HI' & Hs'). eauto.
    + intros st' HI'. apply (I_frame st'); auto. apply next_time_ge.
    + intros t st' HI' Hs' Hin. by apply inv_tick.
Qed.

Lemma inv_poll_step sel st : I st → I (poll_step growcap sel st).
Proof.
  intros HI. unfold poll_step.
  destruct (_scheduler st) as [s|] eqn:Hs; [|done].
  destruct (polling s) eqn:Hpoll; [|done].
  destruct (ready sel st) eqn:Hready; [|done].
  pose proof (poll_step_select growcap sel st s Hs Hpoll Hready) as Hstep.
  unfold poll_step in Hstep. rewrite Hs, Hpoll, Hready in Hstep.
  simpl in Hstep. simpl. rewrite Hstep. clear Hstep.
  pose proof (inv_poll_select sel st s HI Hs) as Hwp.
  unfold wp in Hwp. simpl in Hwp.
  destruct (poll_select growcap sel st) as [st' [[|]|v]];
    destruct Hwp as (HI' & s' & Hs').
  - by apply I_stop.
  - exact HI'.
  - unfold poll_returned. simpl. rewrite Hs'.
    apply (I_sched _ s'); [|done|auto].
    by apply (I_frame st').
Qed.

Lemma inv_step (e : event) st :
  event_builds good e → I st → I (step growcap e st).
Proof.
  intros He HI. destruct e as [T fn v delay|T fn v delay interval|sel]; simpl.
  - rewrite NewOneTimer_eq. cbn [fst].
    apply (I_reg st (after_now st)); auto. apply next_time_ge.
  - rewrite NewIntervalTimer_eq. cbn [fst].
    apply (I_reg st (after_now (after_now st))); auto.
    pose proof (next_time_ge st). pose proof (next_time_ge (after_now st)).
    simpl in *. lia.
  - by apply inv_poll_step.
Qed.

Lemma inv_run (es : list event) st :
  Forall (event_builds good) es → I st → I (run growcap es st).
Proof.
  revert st. induction es as [|e es IH]; intros st Hes HI; [exact HI|].
  apply Forall_cons in Hes as [He Hes]. rewrite run_cons.
  by apply IH, inv_step.
Qed.

End StepInvariant.

(** ** What every timer of the heap keeps *)

Section HeapAll.
Context {World : Type} (growcap : nat → nat → nat).
Implicit Types st : @state World.

(** [P] is a property of timers that a tick does not undo. *)
Context (P : @object World → Prop).
Hypothesis P_tick : ∀ o now w, P o → P (after (object_tick o now w)).

Lemma run_heap_all (es : list event) st :
  Forall (event_builds P) es → Forall P (heap st) →
  Forall P (heap (run growcap es st)).
Proof.
  apply (inv_run growcap P (λ st, Forall P (heap st))).
  - intros st0 st' H Hh _ _ _. by rewrite Hh.
  - intros q o s st0 H _ _ Hq. unfold ticked_state. cbv zeta.
    assert (Hins : Forall P (<[q:=after (object_tick o (clock st0) (world st0))]>
                               (heap st0))).
    { apply Forall_insert; [exact H|]. apply P_tick.
      by apply (proj1 (Forall_lookup _ _) H q o). }
    by destruct (called _).
  - intros st0 s tm' b H _ _. exact H.
  - intros st0 s k g H _ _. exact H.
  - intros st0 H. exact H.
  - intros st0 st1 o g H Ho Hh _ _ _ _. simpl. rewrite Hh.
    apply Forall_app. split; [exact H|by apply Forall_singleton].
Qed.

End HeapAll.

Section StopFlag.
Context {World : Type} (growcap : nat → nat → nat).
Implicit Types st : @state World.

Lemma object_tick_unstopped (o : @object World) now w :
  object_unstopped o → object_unstopped (after (object_tick o now w)).
Proof.
  destruct o as [T x|T x]; simpl; [|done].
  unfold IntervalTimer_tick. destruct (Time_After now (it_n x)); [|done].
  by destruct (it_fn x (it_t x) w) as [w' [v|]].
Qed.

Lemma event_builds_unstopped (e : @event World) :
  event_builds object_unstopped e.
Proof. by destruct e. Qed.

(** X1. In every run of the program a timer that reports [getStop() = true]
    is a one-shot timer ([getInterval() = nil]): nothing sets the stop flag
    of an interval timer, so the sweep never marks an interval timer for
    removal. *)
Theorem interval_timer_never_stopped (w : World) (k : list N)
    (es : list event) (p : nat) (o : object) :
  heap (run growcap es (boot w k)) !! p = Some o →
  object_getStop o = true →
  object_getInterval o = None.
Proof.
  intros Hp Hstop.
  assert (Hall : Forall object_unstopped (heap (run growcap es (boot w k)))).
  { apply run_heap_all.
    - apply object_tick_unstopped.
    - apply Forall_forall. intros e _. apply event_builds_unstopped.
    - constructor. }
  pose proof (proj1 (Forall_lookup _ _) Hall p o Hp) as Ho.
  destruct o as [T x|T x]; [|reflexivity].
  simpl in Ho, Hstop. unfold IntervalTimer_getStop in Hstop. congruence.
Qed.

End StopFlag.

(** ** Timers that are not yet, or no longer, within reach of the sweep *)

Section Reach.
Context {World : Type} (growcap : nat → nat → nat).
Implicit Types st : @state World.

Lemma event_builds_any (e : @event World) : event_builds (λ _, True) e.
Proof. by destruct e. Qed.

Lemma events_build_any (es : list (@event World)) :
  Forall (event_builds (λ _, True)) es.
Proof. apply Forall_forall. intros e _. apply event_builds_any. Qed.


Lemma run_absent (p : nat) (f : list Z) (es : list event) st :
  absent p f st → absent p f (run growcap es st).
Proof.
  apply (inv_run growcap (λ _, True) (absent p f));
    [..|apply events_build_any].
  - intros st0 st' [Hh Hf Hl] Hh' Hf' Hs' Hc. constructor.
    + by rewrite Hh'.
    + unfold fires_of. by rewrite Hf'.
    + intros s Hs. rewrite Hs' in Hs. by apply Hl.
  - intros q o s st0 [Hh Hf Hl] Hs Hin Hq. destruct (Hl s Hs) as [H1 H2].
    assert (Hne : q ≠ p) by (intros ->; by apply H1).
    unfold ticked_state. cbv zeta.
    destruct (called _); constructor; simpl; rewrite ?length_insert; auto.
    unfold fires_of. simpl. by rewrite fires_of_snoc_ne.
  - intros st0 s tm' b [Hh Hf Hl] Hs Harr. destruct (Hl s Hs) as [H1 H2].
    constructor; simpl; auto.
    intros s' [= <-]. simpl. split; [|exact H2].
    intros Hin. apply Harr in Hin as [Hin|Hin]; [auto|done].
  - intros st0 s k g [Hh Hf Hl] Hs Hg. destruct (Hl s Hs) as [H1 H2].
    unfold received_state. constructor; simpl; auto.
    intros s' [= <-]. simpl. split; [|by apply Forall_delete].
    intros Hin. apply append_arr_elem_of in Hin as [Hin|[Hin|Hin]];
      [by apply H1| |done].
    apply list_elem_of_singleton in Hin.
    apply list_elem_of_lookup_2 in Hg.
    by apply (proj1 (Forall_forall _ _) H2 g Hg).
  - intros st0 [Hh Hf Hl]. constructor; simpl; auto. intros s [=].
  - intros st0 st1 o g [Hh Hf Hl] _ Hh' Hf' Hs' Hc Hg. constructor; simpl.
    + rewrite length_app, Hh'. lia.
    + unfold fires_of. simpl. by rewrite Hf'.
    + intros s' [= <-]. simpl. unfold current_scheduler. simpl. rewrite Hs'.
      destruct (_scheduler st0) as [s|] eqn:Hs0; simpl.
      * destruct (Hl s eq_refl) as [H1 H2]. split; [exact H1|].
        apply Forall_app. split; [exact H2|]. apply Forall_singleton.
        rewrite Hg. intros [= Heq]. lia.
      * split; [apply not_elem_of_nil|].
        apply Forall_singleton. rewrite Hg. intros [= Heq]. lia.
Qed.

End Reach.

(** ** The delay of a one-shot timer, teardown, and the end of the loop *)

Section Lifecycle.
Context {World : Type} (growcap : nat → nat → nat).
Implicit Types st : @state World.



Lemma poll_step_stop st (s : scheduler) :
  _scheduler st = Some s → polling s = true →
  poll_step growcap SelStop st = set_scheduler None st.
Proof.
  intros Hs Hp.
  by rewrite (poll_step_select growcap SelStop st s Hs Hp).
Qed.

Lemma poll_step_no_scheduler sel st :
  _scheduler st = None → poll_step growcap sel st = st.
Proof. intros Hs. unfold poll_step. by rewrite Hs. Qed.

(** X3. Teardown.  A stop signal taken by a running loop clears
    [_scheduler]; after it no trip round a loop happens until a constructor
    is called, and that call starts from an empty live set, with the new
    timer alone on the queue of a fresh scheduler.  The timers that were
    live or on their way before the stop are gone with the old scheduler:
    none of them fires again, whatever happens later. *)
Theorem stop_tears_down {T} (fn : func T) (v : T) (delay : option Z)
    st (s : scheduler) (p : nat) (later : list event) :
  _scheduler st = Some s → polling s = true → p < length (heap st) →
  let st1 := step growcap (PollRound SelStop) st in
  _scheduler st1 = None ∧
  (∀ sel, step growcap (PollRound sel) st1 = st1) ∧
  _scheduler (step growcap (CallNewOneTimer fn v delay) st1) =
    Some (mkScheduler make0
            [queued (Some (length (heap st))) delay (next_time st)] true) ∧
  fires_of p (run growcap later st1) = fires_of p st.
Proof.
  intros Hs Hpoll Hp st1.
  assert (Hst1 : st1 = set_scheduler None st).
  { subst st1. simpl. by apply (poll_step_stop st s). }
  split; [by rewrite Hst1|]. split; [|split].
  - intros sel. simpl. apply poll_step_no_scheduler. by rewrite Hst1.
  - rewrite Hst1. simpl. by rewrite NewOneTimer_eq.
  - assert (Hab : absent p (fires_of p st) st1).
    { rewrite Hst1. constructor; simpl; auto. intros s' [=]. }
    apply (ab_fires _ _ _ (run_absent growcap p _ later st1 Hab)).
Qed.

Lemma step_poll_returned_quiet (e : event) st (s : scheduler) :
  _scheduler st = Some s → polling s = false →
  fires (step growcap e st) = fires st ∧
  world (step growcap e st) = world st ∧
  stdout (step growcap e st) = stdout st.
Proof.
  intros Hs Hp. destruct e as [T fn v delay|T fn v delay interval|sel]; simpl.
  - by rewrite NewOneTimer_eq.
  - by rewrite NewIntervalTimer_eq.
  - by rewrite (poll_step_returned growcap sel st s Hs Hp).
Qed.

(** X4. Once the loop of [poll] has returned through the recovered panic,
    the package is silent for good: whatever constructors are called and
    whatever else happens, no callback is invoked any more, the world of the
    callbacks stays as it is, nothing more is printed, and the scheduler
    without a loop stays in place. *)
Theorem poll_returned_for_good (es : list event) st (s : scheduler) :
  _scheduler st = Some s → polling s = false →
  fires (run growcap es st) = fires st ∧
  world (run growcap es st) = world st ∧
  stdout (run growcap es st) = stdout st ∧
  alive (run growcap es st) = false.
Proof.
  revert st s. induction es as [|e es IH]; intros st s Hs Hp.
  { simpl. repeat split. unfold alive. by rewrite Hs. }
  rewrite run_cons.
  destruct (step_poll_returned growcap e st s Hs Hp) as (more & Hs').
  destruct (step_poll_returned_quiet e st s Hs Hp) as (Hf & Hw & Ho).
  destruct (IH _ _ Hs' eq_refl) as (Hf' & Hw' & Ho' & Ha').
  repeat split; congruence.
Qed.

End Lifecycle.

(** ** What one trip round the loop does to the live set and to the log *)

Section Rounds.
Context {World : Type} (growcap : nat → nat → nat).
Implicit Types st : @state World.

(** X5. Intake.  A receive from the queue appends the received timer
    behind the entries of the live set and takes its goroutine off the
    queue; the live entries and their order stay as they were, no callback
    is invoked, and the clock is at least the time the goroutine slept
    to. *)
Theorem receive_appends st (s : scheduler) (k : nat) (g : sender) :
  _scheduler st = Some s → polling s = true →
  len (timers s) ≤ cap (timers s) →
  queue_ch s !! k = Some g →
  ∃ s', _scheduler (step growcap (PollRound (SelQueue k)) st) = Some s' ∧
        elems (timers s') = elems (timers s) ++ [sent g] ∧
        len (timers s') ≤ cap (timers s') ∧
        queue_ch s' = delete k (queue_ch s) ∧
        polling s' = true ∧
        fires (step growcap (PollRound (SelQueue k)) st) = fires st ∧
        heap (step growcap (PollRound (SelQueue k)) st) = heap st ∧
        world (step growcap (PollRound (SelQueue k)) st) = world st ∧
        clock (step growcap (PollRound (SelQueue k)) st) =
          Z.max (clock st) (wake g).
Proof.
  intros Hs Hpoll Hwf Hg. simpl.
  rewrite (poll_step_select growcap (SelQueue k) st s Hs Hpoll).
  2:{ unfold ready. rewrite Hs. apply bool_decide_eq_true_2. by rewrite Hg. }
  unfold poll_select, bind, load_s. rewrite Hs, Hg.
  unfold time_passed, store_s. simpl.
  eexists. split; [reflexivity|]. simpl.
  split; [by apply append_elems|].
  split; [by apply append_cap|]. by rewrite Hpoll.
Qed.

(** What one tick adds to the log. *)
Lemma sweep_one_order j (t : option nat) del st :
  let post := λ st', fires st' = fires st ∨
                     ∃ q now, t = Some q ∧ fires st' = fires st ++ [(q, now)] in
  wp (sweep_one j t del) (λ _, post) (λ _, post) st.
Proof.
  intros post. subst post.
  assert (Htick : ∀ del' : list nat,
    wp (bind time_Now (λ now, bind (timer_tick t now) (λ _, ret del')))
       (λ _ st', fires st' = fires st ∨
                 ∃ q now, t = Some q ∧ fires st' = fires st ++ [(q, now)])
       (λ _ st', fires st' = fires st ∨
                 ∃ q now, t = Some q ∧ fires st' = fires st ++ [(q, now)]) st).
  { intros del'. rewrite wp_bind, wp_time_Now. cbv beta. rewrite wp_bind.
    destruct t as [q|]; [|unfold wp; simpl; auto].
    destruct (heap st !! q) as [o|] eqn:Hq;
      [|unfold wp, timer_tick, bind, deref; simpl; rewrite Hq; auto].
    assert (Hq' : heap (after_now st) !! q = Some o) by exact Hq.
    rewrite (wp_timer_tick q o) by exact Hq'. cbv zeta.
    destruct (called _), (panicked _); simpl; rewrite ?wp_ret; simpl; eauto. }
  unfold sweep_one, timer_getInterval, timer_getStop.
  rewrite !wp_bind. unfold wp at 1, deref.
  destruct t as [q|]; [|auto]. destruct (heap st !! q) as [o|] eqn:Hq; [|auto].
  rewrite wp_ret. simpl. destruct (object_getInterval o).
  - rewrite !wp_bind, (wp_deref q o) by exact Hq. rewrite wp_ret. simpl.
    destruct (object_getStop o); [rewrite wp_ret; auto|]. apply Htick.
  - apply Htick.
Qed.

Lemma sweep_from_order ts j del st :
  let post := λ st', ∃ extra, fires st' = fires st ++ extra ∧
                              (Some <$> extra.*1) `sublist_of` ts in
  wp (sweep_from j ts del) (λ _, post) (λ _, post) st.
Proof.
  revert j del st. induction ts as [|t ts IH]; intros j del st post;
    subst post; simpl.
  { rewrite wp_ret. exists []. rewrite app_nil_r. split; [done|constructor]. }
  rewrite wp_bind.
  eapply wp_mono; [| |apply sweep_one_order].
  - intros del' st' H. simpl.
    eapply wp_mono; [| |apply (IH (S j) del' st')].
    + intros del'' st'' (extra & Hf & Hsub). simpl in *.
      destruct H as [H|(q & now & -> & H)].
      * exists extra. rewrite Hf, H. split; [done|by apply sublist_cons].
      * exists ((q, now) :: extra). rewrite Hf, H, <- app_assoc.
        split; [done|]. simpl. by apply sublist_skip.
    + intros v st'' (extra & Hf & Hsub). simpl in *.
      destruct H as [H|(q & now & -> & H)].
      * exists extra. rewrite Hf, H. split; [done|by apply sublist_cons].
      * exists ((q, now) :: extra). rewrite Hf, H, <- app_assoc.
        split; [done|]. simpl. by apply sublist_skip.
  - intros v st' H. simpl in *.
    destruct H as [H|(q & now & -> & H)].
    + exists []. rewrite app_nil_r. split; [done|apply sublist_nil_l].
    + exists [(q, now)]. split; [done|]. simpl.
      apply sublist_skip, sublist_nil_l.
Qed.

(** X6. One trip round the loop invokes callbacks only in its default
    branch, and there in the order of the live set, at most one per entry:
    the timers logged by the trip, in the order of the log, are entries of
    the live set in the order of the live set.  A stop or a receive invokes
    none. *)
Theorem round_fires_in_live_order (sel : selected) st :
  ∃ extra,
    fires (step growcap (PollRound sel) st) = fires st ++ extra ∧
    (Some <$> extra.*1) `sublist_of` elems (timers (current_scheduler st)) ∧
    (sel = SelDefault ∨ extra = []).
Proof.
  simpl. unfold poll_step, current_scheduler.
  destruct (_scheduler st) as [s|] eqn:Hs; simpl;
    [|exists []; rewrite app_nil_r; auto using sublist_nil_l].
  destruct (polling s) eqn:Hpoll; simpl;
    [|exists []; rewrite app_nil_r; auto using sublist_nil_l].
  destruct (ready sel st) eqn:Hready;
    [|exists []; rewrite app_nil_r; auto using sublist_nil_l].
  pose proof (poll_step_select growcap sel st s Hs Hpoll Hready) as Hstep.
  unfold poll_step in Hstep. rewrite Hs, Hpoll, Hready in Hstep.
  simpl in Hstep. rewrite Hstep. clear Hstep.
  assert (Hwp : wp (poll_select growcap sel)
            (λ _ st', ∃ extra, fires st' = fires st ++ extra ∧
                               (Some <$> extra.*1) `sublist_of`
                                 elems (timers s) ∧
                               (sel = SelDefault ∨ extra = []))
            (λ _ st', ∃ extra, fires st' = fires st ++ extra ∧
                               (Some <$> extra.*1) `sublist_of`
                                 elems (timers s) ∧
                               (sel = SelDefault ∨ extra = []) ∧
                               ∃ s', _scheduler st' = Some s') st).
  { destruct sel as [|k|]; simpl.
    - rewrite wp_ret. exists []. rewrite app_nil_r.
      auto using sublist_nil_l.
    - rewrite wp_bind, (wp_load_s s) by exact Hs.
      destruct (queue_ch s !! k) as [g|] eqn:Hg.
      + unfold wp, bind, time_passed, store_s. simpl. exists [].
        rewrite app_nil_r. auto using sublist_nil_l.
      + rewrite wp_ret. exists []. rewrite app_nil_r.
        auto using sublist_nil_l.
    - unfold sweep. rewrite !wp_bind, (wp_load_s s) by exact Hs. cbv beta.
      rewrite wp_bind.
      pose proof (sweep_from_frame (elems (timers s)) 0 [] st (Forall_nil_2 _))
        as Hfr.
      pose proof (sweep_from_order (elems (timers s)) 0 [] st) as Hord.
      unfold wp in Hfr, Hord |- *. simpl in Hord.
      destruct (sweep_from 0 (elems (timers s)) [] st) as [st' [del|v]].
      + destruct Hfr as (Hs' & _ & _). rewrite Hs in Hs'.
        destruct Hord as (extra & Hf & Hsub).
        pose proof (remove_marked_arr growcap del st' s Hs') as Hrm.
        unfold wp in Hrm. simpl in Hrm.
        destruct (remove_marked growcap del st') as [st'' [u|v]];
          destruct Hrm as (tm' & -> & _); simpl; exists extra; eauto 10.
      + destruct Hfr as (Hs' & _). rewrite Hs in Hs'.
        destruct Hord as (extra & Hf & Hsub). exists extra. eauto 10. }
  unfold wp in Hwp.
  destruct (poll_select growcap sel st) as [st' [[|]|v]].
  - destruct Hwp as (extra & Hf & Hsub & Hsel). exists extra. auto.
  - destruct Hwp as (extra & Hf & Hsub & Hsel). exists extra. auto.
  - destruct Hwp as (extra & Hf & Hsub & Hsel & s' & Hs').
    exists extra. unfold poll_returned. simpl. rewrite Hs'. auto.
Qed.

End Rounds.

(** ** The live set in a run of the program *)

Section LiveSet.
Context {World : Type} (growcap : nat → nat → nat).
Implicit Types st : @state World.

(** A cell of the array after one removal step, below the old capacity,
    holds what a cell at or before it held. *)
Lemma remove_at_cells idx (tm tm' : slice) j (x : option nat) :
  S idx ≤ cap tm → remove_at growcap idx tm = Ok tm' →
  j < cap tm → arr tm' !! j = Some x →
  ∃ j', j' ≤ j ∧ arr tm !! j' = Some x.
Proof.
  intros Hidx Hrm Hj Hx. unfold remove_at, reslice in Hrm.
  rewrite decide_True in Hrm by lia. rewrite decide_True in Hrm by lia.
  injection Hrm as <-. unfold append, elems, cap in *. simpl in *.
  assert (Hl1 : length (take idx (arr tm)) = idx)
    by (rewrite length_take; lia).
  assert (Hl2 : length (take (idx + 1) (arr tm)) = idx + 1)
    by (rewrite length_take; lia).
  rewrite Hl2 in Hx.
  assert (Hcases : ∀ rest : list (option nat),
    (take idx (arr tm) ++ take (idx + 1) (arr tm) ++ rest) !! j = Some x →
    (∃ j', j' ≤ j ∧ arr tm !! j' = Some x) ∨
    (idx + (idx + 1) ≤ j ∧ rest !! (j - (idx + (idx + 1))) = Some x)).
  { intros rest H. destruct (decide (j < idx)) as [H1|H1].
    - rewrite lookup_app_l, lookup_take_lt in H by lia. left. eauto.
    - rewrite lookup_app_r, Hl1 in H by lia.
      destruct (decide (j - idx < idx + 1)) as [H2|H2].
      + rewrite lookup_app_l, lookup_take_lt in H by lia.
        left. exists (j - idx). split; [lia|done].
      + rewrite lookup_app_r, Hl2 in H by lia. right. split; [lia|].
        rewrite <- H. f_equal. lia. }
  case_decide; simpl in Hx; apply Hcases in Hx as [Hx|[Hge Hx]]; auto.
  - rewrite lookup_drop in Hx. exists j. split; [lia|].
    rewrite <- Hx. f_equal. lia.
  - lia.
Qed.

(** The removal loop leaves a live set that fits its array and is made of
    entries of the live set it started from. *)
Lemma remove_all_keeps (P : option nat → Prop) (del : list nat) (tm : slice)
    (n : nat) :
  n ≤ cap tm → len tm ≤ cap tm →
  Forall P (take n (arr tm)) → Forall P (elems tm) →
  Forall (λ idx, idx < n) del →
  ∃ tm', remove_all growcap del tm = Ok tm' ∧
         len tm' ≤ cap tm' ∧ Forall P (elems tm').
Proof.
  revert tm. induction del as [|idx del IH]; intros tm Hn Hwf Hcells Hel Hdel.
  { simpl. eauto. }
  apply Forall_cons in Hdel as [Hidx Hdel]. simpl.
  destruct (remove_at_ok growcap tm idx) as (tm1 & Hrm & He1 & _ & Hc1 & Hw1 & _);
    [lia|].
  rewrite Hrm.
  assert (Hlook : ∀ j x, j < n → arr tm !! j = Some x → P x).
  { intros j x Hj Hx. apply (proj1 (Forall_lookup _ _) Hcells j x).
    by rewrite lookup_take_lt. }
  apply IH; auto; try lia.
  - apply Forall_lookup. intros j x Hx.
    apply lookup_take_Some in Hx as [Hx Hj].
    destruct (remove_at_cells idx tm tm1 j x) as (j' & Hj' & Hx'); auto; try lia.
    apply (Hlook j'); [lia|done].
  - rewrite He1. apply Forall_app. split; apply Forall_lookup; intros j x Hx;
      apply lookup_take_Some in Hx as [Hx Hj]; apply (Hlook j); auto; lia.
Qed.

(** A sweep writes timers back where they were: the heap keeps its
    length. *)
Lemma sweep_from_heap_length ts j del st (s : scheduler) :
  _scheduler st = Some s → Forall (λ t, t ∈ arr (timers s)) ts →
  let post := λ st', length (heap st') = length (heap st) ∧
                     _scheduler st' = Some s in
  wp (sweep_from j ts del) (λ _, post) (λ _, post) st.
Proof.
  intros Hs Hts post. subst post.
  apply (sweep_from_inv (λ st', length (heap st') = length (heap st))
                        (λ st', length (heap st') = length (heap st)) s);
    auto.
  intros t st' Hlen Hs' _.
  destruct t as [q|]; [|by unfold wp].
  destruct (heap st' !! q) as [o|] eqn:Hq;
    [|unfold wp, timer_tick, bind, deref; by rewrite Hq].
  rewrite (wp_timer_tick q o) by exact Hq. cbv zeta.
  destruct (called _), (panicked _); simpl; rewrite length_insert; auto.
Qed.

Lemma live_ok_scheduler st (s : scheduler) :
  _scheduler st = Some s → current_scheduler st = s.
Proof. intros Hs. unfold current_scheduler. by rewrite Hs. Qed.

Lemma live_ok_no_scheduler st : _scheduler st = None → live_ok st.
Proof.
  intros Hs. unfold live_ok, current_scheduler. rewrite Hs. simpl.
  unfold elems, cap. simpl. repeat split; constructor.
Qed.

(** What the default branch leaves when it was entered with a live set in
    order: the heap keeps its length, and the scheduler is the old one with
    a live set in order, or the old one untouched when the sweep has
    panicked. *)
Lemma sweep_live_ok st (s : scheduler) :
  _scheduler st = Some s → live_ok st →
  wp (sweep growcap)
     (λ _ st', length (heap st') = length (heap st) ∧ live_ok st' ∧
               ∃ s', _scheduler st' = Some s' ∧ polling s' = polling s)
     (λ _ st', length (heap st') = length (heap st) ∧ live_ok st' ∧
               _scheduler st' = Some s) st.
Proof.
  intros Hs Hok. unfold live_ok in Hok.
  rewrite (live_ok_scheduler st s Hs) in Hok. destruct Hok as (Hwf & Hel & Hq).
  unfold sweep. rewrite wp_bind, (wp_load_s s) by exact Hs. rewrite wp_bind.
  pose proof (sweep_from_frame (elems (timers s)) 0 [] st (Forall_nil_2 _))
    as Hfr.
  pose proof (sweep_from_heap_length (elems (timers s)) 0 [] st s Hs
                (elems_in_arr _)) as Hlen.
  unfold wp in Hfr, Hlen |- *. simpl in Hlen.
  destruct (sweep_from 0 (elems (timers s)) [] st) as [st' [del|v]].
  - destruct Hfr as (_ & _ & Hdel). destruct Hlen as (Hlen & Hs').
    destruct (remove_all_keeps
                (λ t, ∃ q, t = Some q ∧ q < length (heap st))
                del (timers s) (len (timers s)))
      as (tm' & Hrm & Hwf' & Hel'); auto.
    { eapply Forall_impl; [exact Hdel|]. simpl. intros idx Hidx.
      unfold elems, cap in *. rewrite length_take in Hidx. lia. }
    assert (HQ : wp (remove_marked growcap del)
                  (λ _ st'', length (heap st'') = length (heap st) ∧
                             live_ok st'' ∧
                             ∃ s', _scheduler st'' = Some s' ∧
                                   polling s' = polling s)
                  (λ _ _, False) st').
    { apply (wp_remove_marked growcap del s tm' _ _ st' Hs' Hrm). simpl.
      split; [exact Hlen|]. split; [|eauto].
      unfold live_ok, current_scheduler. simpl. rewrite Hlen. auto. }
    unfold wp in HQ.
    by destruct (remove_marked growcap del st') as [st'' [u|v]].
  - destruct Hfr as (_ & _). destruct Hlen as (Hlen & Hs').
    split; [exact Hlen|]. split; [|exact Hs'].
    unfold live_ok. rewrite (live_ok_scheduler st' s Hs'), Hlen. auto.
Qed.

Lemma Forall_pointer_mono (n m : nat) (l : list (option nat)) :
  n ≤ m → Forall (λ t, ∃ q, t = Some q ∧ q < n) l →
  Forall (λ t, ∃ q, t = Some q ∧ q < m) l.
Proof.
  intros Hnm H. eapply Forall_impl; [exact H|].
  intros t (q & -> & Hq). exists q. split; [done|lia].
Qed.

Lemma Forall_sender_mono (n m : nat) (l : list sender) :
  n ≤ m → Forall (λ g, ∃ q, sent g = Some q ∧ q < n) l →
  Forall (λ g, ∃ q, sent g = Some q ∧ q < m) l.
Proof.
  intros Hnm H. eapply Forall_impl; [exact H|].
  intros t (q & Hg & Hq). exists q. split; [done|lia].
Qed.

Lemma poll_step_live_ok sel st : live_ok st → live_ok (poll_step growcap sel st).
Proof.
  intros Hok. unfold poll_step.
  destruct (_scheduler st) as [s|] eqn:Hs; [|done].
  destruct (polling s) eqn:Hpoll; [|done].
  destruct (ready sel st) eqn:Hready; [|done].
  pose proof (poll_step_select growcap sel st s Hs Hpoll Hready) as Hstep.
  unfold poll_step in Hstep. rewrite Hs, Hpoll, Hready in Hstep.
  simpl in Hstep. simpl. rewrite Hstep. clear Hstep.
  destruct sel as [|k|]; simpl.
  - by apply live_ok_no_scheduler.
  - unfold bind, load_s. rewrite Hs.
    destruct (queue_ch s !! k) as [g|] eqn:Hg; simpl; [|exact Hok].
    unfold live_ok in Hok |- *. rewrite (live_ok_scheduler st s Hs) in Hok.
    destruct Hok as (Hwf & Hel & Hq). unfold current_scheduler. simpl.
    split; [by apply append_cap|]. split.
    + rewrite append_elems by exact Hwf. apply Forall_app. split; [exact Hel|].
      apply Forall_singleton. apply list_elem_of_lookup_2 in Hg.
      by apply (proj1 (Forall_forall _ _) Hq g).
    + by apply Forall_delete.
  - pose proof (sweep_live_ok st s Hs Hok) as Hwp. unfold wp in Hwp.
    unfold bind. destruct (sweep growcap st) as [st' [u|v]]; simpl.
    + apply Hwp.
    + destruct Hwp as (Hlen & Hok' & Hs'). unfold poll_returned. simpl.
      rewrite Hs'. unfold live_ok in Hok' |- *.
      rewrite (live_ok_scheduler st' s Hs') in Hok'. exact Hok'.
Qed.

Lemma registration_live_ok (o : object) (g : sender) st st1 :
  live_ok st →
  heap st1 = heap st → _scheduler st1 = _scheduler st →
  sent g = Some (length (heap st)) →
  live_ok (enqueued g (set_heap (heap st1 ++ [o]) st1)).
Proof.
  unfold live_ok, current_scheduler. simpl. intros (Hwf & Hel & Hq) Hh Hs Hg.
  unfold current_scheduler. simpl. rewrite Hs, Hh, length_app. simpl.
  split; [exact Hwf|]. split.
  - eapply Forall_pointer_mono; [|exact Hel]. lia.
  - apply Forall_app. split.
    + eapply Forall_sender_mono; [|exact Hq]. lia.
    + apply Forall_singleton. exists (length (heap st)). split; [done|lia].
Qed.

Lemma step_live_ok (e : event) st : live_ok st → live_ok (step growcap e st).
Proof.
  intros Hok. destruct e as [T fn v delay|T fn v delay interval|sel]; simpl.
  - rewrite NewOneTimer_eq. cbn [fst].
    by apply (registration_live_ok _ _ st (after_now st)).
  - rewrite NewIntervalTimer_eq. cbn [fst].
    by apply (registration_live_ok _ _ st (after_now (after_now st))).
  - by apply poll_step_live_ok.
Qed.

(** X7. In every run of the program the live set fits its backing array
    and every entry of it is a pointer to a timer of the heap, never nil,
    and so is the timer carried by every goroutine waiting on the queue:
    the slicing of the removal loop stays within the capacity, and a method
    call of the sweep never meets a nil interface value. *)
Theorem run_live_ok (w : World) (k : list N) (es : list event) :
  let st := run growcap es (boot w k) in
  let s := current_scheduler st in
  len (timers s) ≤ cap (timers s) ∧
  Forall (λ t, ∃ q, t = Some q ∧ is_Some (heap st !! q)) (elems (timers s)) ∧
  Forall (λ g, ∃ q, sent g = Some q ∧ is_Some (heap st !! q)) (queue_ch s).
Proof.
  intros st s.
  assert (Hok : live_ok st).
  { subst st. generalize (boot w k), (live_ok_no_scheduler (boot w k) eq_refl).
    induction es as [|e es IH]; intros st0 H0; [exact H0|].
    rewrite run_cons. by apply IH, step_live_ok. }
  destruct Hok as (Hwf & Hel & Hq). fold s in Hwf, Hel, Hq.
  split; [exact Hwf|]. split.
  - eapply Forall_impl; [exact Hel|]. intros t (q & -> & Hlt). exists q.
    split; [done|]. by apply lookup_lt_is_Some.
  - eapply Forall_impl; [exact Hq|]. intros g (q & Hg & Hlt). exists q.
    split; [done|]. by apply lookup_lt_is_Some.
Qed.

End LiveSet.

(** ** Callbacks that return *)

Section Gentle.
Context {World : Type} (growcap : nat → nat → nat).
Implicit Types st : @state World.

Lemma object_tick_gentle (o : @object World) now w :
  object_gentle o →
  object_gentle (after (object_tick o now w)) ∧
  panicked (object_tick o now w) = None.
Proof.
  destruct o as [T x|T x]; simpl; intros Hg.
  - unfold IntervalTimer_tick. destruct (Time_After now (it_n x)); [|done].
    specialize (Hg w) as Hw.
    destruct (it_fn x (it_t x) w) as [w' [v|]]; [done|]. by split.
  - unfold OneTimer_tick. specialize (Hg w) as Hw.
    destruct (ot_fn x (ot_t x) w) as [w' r]. simpl in *. by subst r.
Qed.

(** With callbacks that return and a live set of pointers into the heap,
    the sweep does not panic. *)
Lemma sweep_from_gentle ts j del st (n : nat) :
  Forall object_gentle (heap st) → length (heap st) = n →
  Forall (λ t, ∃ q, t = Some q ∧ q < n) ts →
  wp (sweep_from j ts del)
     (λ _ st', Forall object_gentle (heap st') ∧ length (heap st') = n)
     (λ _ _, False) st.
Proof.
  revert j del st. induction ts as [|t ts IH]; intros j del st Hg Hn Hts.
  { simpl. by rewrite wp_ret. }
  apply Forall_cons in Hts as [(q & -> & Hq) Hts]. simpl. rewrite wp_bind.
  assert (Hone : wp (sweep_one j (Some q) del)
            (λ _ st', Forall object_gentle (heap st') ∧ length (heap st') = n)
            (λ _ _, False) st).
  { destruct (lookup_lt_is_Some_2 (heap st) q) as [o Ho]; [lia|].
    pose proof (proj1 (Forall_lookup _ _) Hg q o Ho) as Hgo.
    assert (Htick : ∀ del' : list nat,
      wp (bind time_Now
            (λ now, bind (timer_tick (Some q) now) (λ _, ret del')))
         (λ _ st', Forall object_gentle (heap st') ∧ length (heap st') = n)
         (λ _ _, False) st).
    { intros del'. rewrite wp_bind, wp_time_Now. cbv beta. rewrite wp_bind.
      assert (Ho' : heap (after_now st) !! q = Some o) by exact Ho.
      rewrite (wp_timer_tick q o) by exact Ho'. cbv zeta.
      destruct (object_tick_gentle o (next_time st) (world (after_now st)) Hgo)
        as [Hg' Hp'].
      rewrite Hp'.
      assert (Hins : Forall object_gentle
                (<[q:=after (object_tick o (next_time st)
                               (world (after_now st)))]> (heap st)))
        by (by apply Forall_insert).
      destruct (called _); rewrite wp_ret; simpl; rewrite length_insert;
        auto. }
    unfold sweep_one. rewrite wp_bind, (wp_timer_getInterval q o) by exact Ho.
    destruct (object_getInterval o).
    - rewrite wp_bind, (wp_timer_getStop q o) by exact Ho.
      destruct (object_getStop o); [by rewrite wp_ret|]. apply Htick.
    - apply Htick. }
  eapply wp_mono; [| |exact Hone]; [|done].
  intros del' st' [Hg' Hn']. simpl. by apply IH.
Qed.

(** The default branch then returns, prints nothing and leaves the loop
    running. *)
Lemma sweep_gentle st (s : scheduler) :
  _scheduler st = Some s → live_ok st → Forall object_gentle (heap st) →
  wp (sweep growcap)
     (λ _ st', stdout st' = stdout st ∧
               ∃ s', _scheduler st' = Some s' ∧ polling s' = polling s)
     (λ _ _, False) st.
Proof.
  intros Hs Hok Hg. unfold live_ok in Hok.
  rewrite (live_ok_scheduler st s Hs) in Hok. destruct Hok as (Hwf & Hel & Hq).
  unfold sweep. rewrite wp_bind, (wp_load_s s) by exact Hs. rewrite wp_bind.
  pose proof (sweep_from_frame (elems (timers s)) 0 [] st (Forall_nil_2 _))
    as Hfr.
  pose proof (sweep_from_gentle (elems (timers s)) 0 [] st _ Hg eq_refl Hel)
    as Hgen.
  unfold wp in Hfr, Hgen |- *.
  destruct (sweep_from 0 (elems (timers s)) [] st) as [st' [del|v]]; [|done].
  destruct Hfr as (Hs' & Hout & Hdel). rewrite Hs in Hs'.
  destruct (remove_all_keeps growcap (λ _, True) del (timers s) (len (timers s)))
    as (tm' & Hrm & _); auto.
  { apply Forall_true. done. }
  { apply Forall_true. done. }
  { eapply Forall_impl; [exact Hdel|]. simpl. intros idx Hidx.
    unfold elems, cap in *. rewrite length_take in Hidx. lia. }
  assert (HQ : wp (remove_marked growcap del)
                (λ _ st'', stdout st'' = stdout st ∧
                           ∃ s', _scheduler st'' = Some s' ∧
                                 polling s' = polling s)
                (λ _ _, False) st').
  { apply (wp_remove_marked growcap del s tm' _ _ st' Hs' Hrm). simpl. eauto. }
  unfold wp in HQ.
  by destruct (remove_marked growcap del st') as [st'' [u|v]].
Qed.

Lemma poll_step_gentle sel st :
  live_ok st → Forall object_gentle (heap st) → alive st = true →
  alive (poll_step growcap sel st) = true ∧
  stdout (poll_step growcap sel st) = stdout st.
Proof.
  intros Hok Hg Ha. unfold poll_step.
  destruct (_scheduler st) as [s|] eqn:Hs; [|done].
  destruct (polling s) eqn:Hpoll; [|done].
  destruct (ready sel st) eqn:Hready; [|done].
  pose proof (poll_step_select growcap sel st s Hs Hpoll Hready) as Hstep.
  unfold poll_step in Hstep. rewrite Hs, Hpoll, Hready in Hstep.
  simpl in Hstep. simpl. rewrite Hstep. clear Hstep.
  destruct sel as [|k|]; simpl.
  - done.
  - unfold bind, load_s. rewrite Hs.
    destruct (queue_ch s !! k) as [g|] eqn:Hg'; simpl; [|done].
    unfold alive. simpl. done.
  - pose proof (sweep_gentle st s Hs Hok Hg) as Hwp. unfold wp in Hwp.
    unfold bind. destruct (sweep growcap st) as [st' [u|v]]; [|done]. simpl.
    destruct Hwp as (Hout & s' & Hs' & Hp'). split; [|exact Hout].
    unfold alive. rewrite Hs'. congruence.
Qed.

Lemma step_gentle (e : event) st :
  live_ok st → Forall object_gentle (heap st) → alive st = true →
  alive (step growcap e st) = true ∧
  stdout (step growcap e st) = stdout st.
Proof.
  intros Hok Hg Ha. destruct e as [T fn v delay|T fn v delay interval|sel];
    simpl.
  - rewrite NewOneTimer_eq. cbn [fst]. split; [|done].
    revert Ha. unfold alive, enqueued, current_scheduler. simpl.
    by destruct (_scheduler st).
  - rewrite NewIntervalTimer_eq. cbn [fst]. split; [|done].
    revert Ha. unfold alive, enqueued, current_scheduler. simpl.
    by destruct (_scheduler st).
  - by apply poll_step_gentle.
Qed.

(** X8. The loop of [poll] ends by a stop signal or by a panicking
    callback only.  In a run in which the callback of every constructed
    timer returns on its payload, no trip round the loop panics: no
    scheduler is ever left without its loop, and nothing is ever
    printed. *)
Theorem loop_survives_returning_callbacks (w : World) (k : list N)
    (es : list event) :
  Forall (event_builds object_gentle) es →
  alive (run growcap es (boot w k)) = true ∧
  stdout (run growcap es (boot w k)) = [].
Proof.
  intros Hes.
  assert (Hinv : ∀ st,
    live_ok st → Forall object_gentle (heap st) →
    alive st = true → stdout st = [] →
    alive (run growcap es st) = true ∧ stdout (run growcap es st) = []).
  { induction Hes as [|e es He Hes IH]; intros st Hok Hg Ha Ho; [done|].
    rewrite run_cons.
    destruct (step_gentle e st Hok Hg Ha) as [Ha' Ho'].
    apply IH.
    - by apply step_live_ok.
    - apply (run_heap_all growcap object_gentle
               (λ o now w0 H, proj1 (object_tick_gentle o now w0 H)) [e] st);
        [by apply Forall_singleton|exact Hg].
    - exact Ha'.
    - congruence. }
  apply Hinv; [by apply live_ok_no_scheduler|constructor|done|done].
Qed.

End Gentle.

(** ** One-shot timers in the live set *)

Section LiveOneShot.
Context {World : Type} (growcap : nat → nat → nat).
Context {T : Type} (p : nat) (x : @OneTimer World T).
Implicit Types st : @state World.

Lemma sweep_from_one_shot ts j del st (n : nat) :
  Forall object_gentle (heap st) → length (heap st) = n →
  Forall (λ t, ∃ q, t = Some q ∧ q < n) ts →
  heap st !! p = Some (ObjOne x) →
  wp (sweep_from j ts del)
     (λ _ st', Forall object_gentle (heap st') ∧ length (heap st') = n ∧
               heap st' !! p = Some (ObjOne x) ∧
               length (fires_of p st') =
                 length (fires_of p st) +
                 length (filter (λ t, t = Some p) ts))
     (λ _ _, False) st.
Proof.
  revert j del st. induction ts as [|t ts IH]; intros j del st Hg Hn Hts Hp.
  { simpl. rewrite wp_ret. repeat split; auto. }
  apply Forall_cons in Hts as [(q & -> & Hq) Hts]. simpl. rewrite wp_bind.
  assert (Hone : wp (sweep_one j (Some q) del)
            (λ _ st', Forall object_gentle (heap st') ∧ length (heap st') = n ∧
                      heap st' !! p = Some (ObjOne x) ∧
                      length (fires_of p st') =
                        length (fires_of p st) +
                        (if decide (Some q = Some p) then 1 else 0))
            (λ _ _, False) st).
  { destruct (lookup_lt_is_Some_2 (heap st) q) as [o Ho]; [lia|].
    pose proof (proj1 (Forall_lookup _ _) Hg q o Ho) as Hgo.
    destruct (decide (q = p)) as [->|Hne].
    - rewrite Hp in Ho. injection Ho as <-.
      rewrite decide_True by done.
      unfold sweep_one.
      rewrite wp_bind, (wp_timer_getInterval p (ObjOne x)) by exact Hp.
      simpl. rewrite wp_bind, wp_time_Now. cbv beta. rewrite wp_bind.
      assert (Hp' : heap (after_now st) !! p = Some (ObjOne x)) by exact Hp.
      rewrite (wp_timer_tick p (ObjOne x)) by exact Hp'. cbv zeta. simpl.
      unfold OneTimer_tick. simpl in Hgo.
      specialize (Hgo (world st)).
      destruct (ot_fn x (ot_t x) (world st)) as [w' r]. simpl in *. subst r.
      rewrite wp_ret. simpl. rewrite list_insert_id by exact Hp.
      repeat split; auto.
      unfold fires_of. simpl. rewrite fires_of_snoc_eq, length_app. simpl. lia.
    - rewrite decide_False by congruence.
      assert (Htick : ∀ del' : list nat,
        wp (bind time_Now
              (λ now, bind (timer_tick (Some q) now) (λ _, ret del')))
           (λ _ st', Forall object_gentle (heap st') ∧ length (heap st') = n ∧
                     heap st' !! p = Some (ObjOne x) ∧
                     length (fires_of p st') = length (fires_of p st) + 0)
           (λ _ _, False) st).
      { intros del'. rewrite wp_bind, wp_time_Now. cbv beta. rewrite wp_bind.
        assert (Ho' : heap (after_now st) !! q = Some o) by exact Ho.
        rewrite (wp_timer_tick q o) by exact Ho'. cbv zeta.
        destruct (object_tick_gentle o (next_time st) (world (after_now st))
                    Hgo) as [Hg' Hp'].
        rewrite Hp'.
        assert (Hins : Forall object_gentle
                  (<[q:=after (object_tick o (next_time st)
                                 (world (after_now st)))]> (heap st)))
          by (by apply Forall_insert).
        destruct (called _); rewrite wp_ret; simpl;
          rewrite length_insert, list_lookup_insert_ne by done;
          repeat split; auto.
        unfold fires_of. simpl. rewrite fires_of_snoc_ne by done. lia. }
      unfold sweep_one.
      rewrite wp_bind, (wp_timer_getInterval q o) by exact Ho.
      destruct (object_getInterval o).
      + rewrite wp_bind, (wp_timer_getStop q o) by exact Ho.
        destruct (object_getStop o); [|apply Htick].
        rewrite wp_ret. repeat split; auto.
      + apply Htick. }
  eapply wp_mono; [| |exact Hone]; [|done].
  intros del' st' (Hg' & Hn' & Hp' & Hf'). simpl.
  eapply wp_mono; [| |by apply (IH (S j) del' st')]; [|done].
  intros del'' st'' (Hg'' & Hn'' & Hp'' & Hf''). simpl in *.
  repeat split; auto. rewrite Hf'', Hf'.
  destruct (decide (Some q = Some p)) as [Heq|Hne].
  - rewrite filter_cons_True by done. simpl. lia.
  - rewrite filter_cons_False by done. lia.
Qed.

(** X9. A sweep that meets returning callbacks only invokes the callback of
    a one-shot timer once for each entry the timer has in the live set: a
    one-shot timer that is live fires in the next sweep. *)
Theorem live_one_shot_fires st (s : scheduler) :
  _scheduler st = Some s → polling s = true →
  len (timers s) ≤ cap (timers s) →
  Forall (λ t, ∃ q, t = Some q ∧ q < length (heap st)) (elems (timers s)) →
  Forall object_gentle (heap st) →
  heap st !! p = Some (ObjOne x) →
  length (fires_of p (step growcap (PollRound SelDefault) st)) =
    length (fires_of p st) +
    length (filter (λ t, t = Some p) (elems (timers s))).
Proof.
  intros Hs Hpoll Hwf Hel Hg Hp. simpl.
  rewrite (poll_step_select growcap SelDefault st s Hs Hpoll) by reflexivity.
  unfold poll_select, sweep, bind at 1 2 3, load_s. rewrite Hs.
  pose proof (sweep_from_frame (elems (timers s)) 0 [] st (Forall_nil_2 _))
    as Hfr.
  pose proof (sweep_from_one_shot (elems (timers s)) 0 [] st _ Hg eq_refl
                Hel Hp) as Hcnt.
  unfold wp in Hfr, Hcnt.
  destruct (sweep_from 0 (elems (timers s)) [] st) as [st' [del|v]]; [|done].
  destruct Hfr as (Hs' & _ & Hdel). rewrite Hs in Hs'.
  destruct Hcnt as (_ & _ & _ & Hcnt).
  destruct (remove_all_keeps growcap (λ _, True) del (timers s) (len (timers s)))
    as (tm' & Hrm & _); auto.
  { apply Forall_true. done. }
  { apply Forall_true. done. }
  { eapply Forall_impl; [exact Hdel|]. simpl. intros idx Hidx.
    unfold elems, cap in *. rewrite length_take in Hidx. lia. }
  assert (HQ : wp (remove_marked growcap del)
                (λ _ st'', fires st'' = fires st') (λ _ _, False) st').
  { by apply (wp_remove_marked growcap del s tm' _ _ st' Hs' Hrm). }
  unfold wp in HQ.
  destruct (remove_marked growcap del st') as [st'' [u|v]]; [|done].
  simpl. unfold fires_of in *. by rewrite HQ.
Qed.

End LiveOneShot.

(** ** What a timer keeps, and interval timers that are due *)

Section Keeps.
Context {World : Type} (growcap : nat → nat → nat).
Implicit Types st : @state World.

Lemma object_tick_capabilities (o : @object World) now w :
  object_getCreated (after (object_tick o now w)) = object_getCreated o ∧
  object_getInterval (after (object_tick o now w)) = object_getInterval o ∧
  object_getStop (after (object_tick o now w)) = object_getStop o.
Proof.
  destruct o as [T x|T x]; simpl.
  - unfold IntervalTimer_tick. destruct (Time_After now (it_n x)); [|done].
    by destruct (it_fn x (it_t x) w) as [w' [v|]].
  - unfold OneTimer_tick. by destruct (ot_fn x (ot_t x) w).
Qed.

(** X10. Whatever happens in the program, a timer stays at its address
    and keeps what it reports through [getCreated], [getInterval] and
    [getStop]: a one-shot timer stays one-shot, an interval timer keeps its
    interval, and neither is ever freed or replaced. *)
Theorem timer_keeps_capabilities (es : list event) st (p : nat) (o : object) :
  heap st !! p = Some o →
  ∃ o', heap (run growcap es st) !! p = Some o' ∧
        object_getCreated o' = object_getCreated o ∧
        object_getInterval o' = object_getInterval o ∧
        object_getStop o' = object_getStop o.
Proof.
  intros Hp.
  apply (inv_run growcap (λ _, True)
           (λ st', ∃ o', heap st' !! p = Some o' ∧
                         object_getCreated o' = object_getCreated o ∧
                         object_getInterval o' = object_getInterval o ∧
                         object_getStop o' = object_getStop o));
    [..|apply events_build_any|by exists o].
  - intros st0 st' H Hh _ _ _. by rewrite Hh.
  - intros q o0 s st0 (o' & Hp' & Hc & Hi & Hs) _ _ Hq.
    assert (Hins : ∃ o'',
      <[q:=after (object_tick o0 (clock st0) (world st0))]> (heap st0) !! p
        = Some o'' ∧
      object_getCreated o'' = object_getCreated o ∧
      object_getInterval o'' = object_getInterval o ∧
      object_getStop o'' = object_getStop o).
    { destruct (decide (q = p)) as [->|Hne].
      - rewrite Hq in Hp'. injection Hp' as ->.
        rewrite list_lookup_insert_eq by (by apply lookup_lt_Some in Hq).
        eexists. split; [reflexivity|].
        destruct (object_tick_capabilities o' (clock st0) (world st0))
          as (H1 & H2 & H3).
        repeat split; congruence.
      - rewrite list_lookup_insert_ne by done. eauto. }
    unfold ticked_state. cbv zeta. by destruct (called _).
  - intros st0 s tm' b H _ _. exact H.
  - intros st0 s k g H _ _. exact H.
  - intros st0 H. exact H.
  - intros st0 st1 o0 g (o' & Hp' & H) _ Hh _ _ _ _. simpl. rewrite Hh.
    exists o'. split; [|exact H]. by apply lookup_app_l_Some.
Qed.

End Keeps.

(** ** Interval timers that are due *)

Section Due.
Context {World : Type} (growcap : nat → nat → nat).
Context (p : nat) (base : nat) (c0 : Z).
Implicit Types st : @state World.

Lemma sweep_one_due j (q : nat) del st (n : nat) :
  Forall object_gentle (heap st) → length (heap st) = n → q < n →
  due_or_fired p base c0 st →
  wp (sweep_one j (Some q) del)
     (λ _ st', Forall object_gentle (heap st') ∧ length (heap st') = n ∧
               due_or_fired p base c0 st' ∧
               (base < length (fires_of p st) ∨ q = p →
                base < length (fires_of p st')))
     (λ _ _, False) st.
Proof.
  intros Hg Hn Hq (T & x & Hp & Hs & Hbase & Hdue & Hc).
  destruct (lookup_lt_is_Some_2 (heap st) q) as [o Ho]; [lia|].
  pose proof (proj1 (Forall_lookup _ _) Hg q o Ho) as Hgo.
  pose proof (next_time_ge st) as Hnow.
  assert (Ho' : heap (after_now st) !! q = Some o) by exact Ho.
  destruct (decide (q = p)) as [->|Hne].
  - rewrite Hp in Ho. injection Ho as <-.
    unfold sweep_one.
    rewrite wp_bind, (wp_timer_getInterval p (ObjInterval x)) by exact Hp.
    simpl. rewrite wp_bind, (wp_timer_getStop p (ObjInterval x)) by exact Hp.
    simpl. unfold IntervalTimer_getStop. rewrite Hs.
    rewrite wp_bind, wp_time_Now. cbv beta. rewrite wp_bind.
    rewrite (wp_timer_tick p (ObjInterval x)) by exact Ho'. cbv zeta. simpl.
    pose proof (Hgo (world st)) as Hret. simpl in Hret.
    destruct (decide (it_n x < next_time st)%Z) as [Hd|Hd].
    + rewrite IntervalTimer_tick_due by exact Hd.
      destruct (it_fn x (it_t x) (world st)) as [w' r]. simpl in Hret.
      subst r. simpl. rewrite wp_ret.
      assert (Hcnt : length (fires_of p
                (set_fires (fires st ++ [(p, next_time st)])
                   (set_world w'
                      (set_heap (<[p:=ObjInterval
                                        (set_n x (Time_Add (next_time st)
                                                           (it_i x)))]>
                                   (heap st)) (after_now st)))))
              = S (length (fires_of p st))).
      { unfold fires_of. simpl. rewrite fires_of_snoc_eq, length_app.
        simpl. lia. }
      split; [by apply Forall_insert|].
      split; [simpl; by rewrite length_insert|].
      split; [|intros _; rewrite Hcnt; lia].
      eexists T, _. split.
      { simpl. apply list_lookup_insert_eq. by apply lookup_lt_Some in Hp. }
      split; [exact Hs|]. rewrite Hcnt. simpl. split; [lia|]. split; lia.
    + rewrite IntervalTimer_tick_early by lia. simpl. rewrite wp_ret.
      rewrite list_insert_id by exact Hp.
      assert (Hfired : base < length (fires_of p st)).
      { destruct (decide (length (fires_of p st) = base)) as [Heq|Hneq];
          [|lia].
        specialize (Hdue Heq). lia. }
      split; [exact Hg|]. split; [exact Hn|]. split; [|done].
      exists T, x. repeat split; auto; simpl; lia.
  - assert (Hkeep : ∀ st',
      heap st' !! p = Some (ObjInterval x) →
      fires_of p st' = fires_of p st → (clock st ≤ clock st')%Z →
      due_or_fired p base c0 st' ∧
      (base < length (fires_of p st) ∨ q = p →
       base < length (fires_of p st'))).
    { intros st' Hp' Hf' Hc'. split.
      - exists T, x. rewrite Hf'. repeat split; auto. lia.
      - rewrite Hf'. intros [H|H]; [exact H|done]. }
    assert (Htick : ∀ del' : list nat,
      wp (bind time_Now
            (λ now, bind (timer_tick (Some q) now) (λ _, ret del')))
         (λ _ st', Forall object_gentle (heap st') ∧ length (heap st') = n ∧
                   due_or_fired p base c0 st' ∧
                   (base < length (fires_of p st) ∨ q = p →
                    base < length (fires_of p st')))
         (λ _ _, False) st).
    { intros del'. rewrite wp_bind, wp_time_Now. cbv beta. rewrite wp_bind.
      rewrite (wp_timer_tick q o) by exact Ho'. cbv zeta.
      destruct (object_tick_gentle o (next_time st) (world (after_now st))
                  Hgo) as [Hg' Hp'].
      rewrite Hp'.
      assert (Hins : Forall object_gentle
                (<[q:=after (object_tick o (next_time st)
                               (world (after_now st)))]> (heap st)))
        by (by apply Forall_insert).
      destruct (called _); rewrite wp_ret; simpl; rewrite length_insert;
        (split; [exact Hins|]); (split; [exact Hn|]);
        apply Hkeep; simpl; auto;
        try (by rewrite list_lookup_insert_ne).
      unfold fires_of. simpl. by rewrite fires_of_snoc_ne. }
    unfold sweep_one.
    rewrite wp_bind, (wp_timer_getInterval q o) by exact Ho.
    destruct (object_getInterval o).
    + rewrite wp_bind, (wp_timer_getStop q o) by exact Ho.
      destruct (object_getStop o); [|apply Htick].
      rewrite wp_ret. split; [exact Hg|]. split; [exact Hn|].
      apply Hkeep; auto. lia.
    + apply Htick.
Qed.

Lemma sweep_from_due ts j del st (n : nat) :
  Forall object_gentle (heap st) → length (heap st) = n →
  Forall (λ t, ∃ q, t = Some q ∧ q < n) ts →
  due_or_fired p base c0 st →
  wp (sweep_from j ts del)
     (λ _ st', Forall object_gentle (heap st') ∧ length (heap st') = n ∧
               due_or_fired p base c0 st' ∧
               (base < length (fires_of p st) ∨ Some p ∈ ts →
                base < length (fires_of p st')))
     (λ _ _, False) st.
Proof.
  revert j del st. induction ts as [|t ts IH]; intros j del st Hg Hn Hts Hd.
  { simpl. rewrite wp_ret. repeat split; auto.
    intros [H|Hin]; [exact H|]. by apply elem_of_nil in Hin. }
  apply Forall_cons in Hts as [(q & -> & Hq) Hts]. simpl. rewrite wp_bind.
  eapply wp_mono; [| |by apply (sweep_one_due j q del st n)]; [|done].
  intros del' st' (Hg' & Hn' & Hd' & Hf'). simpl.
  eapply wp_mono; [| |by apply (IH (S j) del' st')]; [|done].
  intros del'' st'' (Hg'' & Hn'' & Hd'' & Hf''). simpl in *.
  repeat split; auto. intros [H|Hin].
  - apply Hf''. left. apply Hf'. by left.
  - apply elem_of_cons in Hin as [[= <-]|Hin].
    + apply Hf''. left. apply Hf'. by right.
    + apply Hf''. by right.
Qed.

End Due.

Section DueFires.
Context {World : Type} (growcap : nat → nat → nat).
Implicit Types st : @state World.

(** X11. A sweep that meets returning callbacks only invokes the callback
    of every interval timer of the live set that is due: when [nextDue] of
    a live interval timer is before the clock at the start of the sweep,
    the timer has fired once more, at least, when the sweep is over. *)
Theorem due_interval_timer_fires {T} (x : IntervalTimer T) (p : nat)
    st (s : scheduler) :
  _scheduler st = Some s → polling s = true →
  len (timers s) ≤ cap (timers s) →
  Forall (λ t, ∃ q, t = Some q ∧ q < length (heap st)) (elems (timers s)) →
  Forall object_gentle (heap st) →
  heap st !! p = Some (ObjInterval x) → it_s x = false →
  (it_n x < clock st)%Z →
  Some p ∈ elems (timers s) →
  length (fires_of p st) <
    length (fires_of p (step growcap (PollRound SelDefault) st)).
Proof.
  intros Hs Hpoll Hwf Hel Hg Hp Hstop Hdue Hin. simpl.
  rewrite (poll_step_select growcap SelDefault st s Hs Hpoll) by reflexivity.
  unfold poll_select, sweep, bind at 1 2 3, load_s. rewrite Hs.
  pose proof (sweep_from_frame (elems (timers s)) 0 [] st (Forall_nil_2 _))
    as Hfr.
  assert (Hd : due_or_fired p (length (fires_of p st)) (clock st) st).
  { exists T, x. repeat split; auto. lia. }
  pose proof (sweep_from_due p _ _ (elems (timers s)) 0 [] st _ Hg eq_refl
                Hel Hd) as Hcnt.
  unfold wp in Hfr, Hcnt.
  destruct (sweep_from 0 (elems (timers s)) [] st) as [st' [del|v]]; [|done].
  destruct Hfr as (Hs' & _ & Hdel). rewrite Hs in Hs'.
  destruct Hcnt as (_ & _ & _ & Hcnt). specialize (Hcnt (or_intror Hin)).
  destruct (remove_all_keeps growcap (λ _, True) del (timers s) (len (timers s)))
    as (tm' & Hrm & _); auto.
  { apply Forall_true. done. }
  { apply Forall_true. done. }
  { eapply Forall_impl; [exact Hdel|]. simpl. intros idx Hidx.
    unfold elems, cap in *. rewrite length_take in Hidx. lia. }
  assert (HQ : wp (remove_marked growcap del)
                (λ _ st'', fires st'' = fires st') (λ _ _, False) st').
  { by apply (wp_remove_marked growcap del s tm' _ _ st' Hs' Hrm). }
  unfold wp in HQ.
  destruct (remove_marked growcap del st') as [st'' [u|v]]; [|done].
  simpl. unfold fires_of in *. by rewrite HQ.
Qed.

End DueFires.

Section NeverEmptied.
Context {World : Type} (growcap : nat → nat → nat).
Implicit Types st : @state World.

(** The removal loop leaves an entry in a live set that had one. *)
Lemma sweep_nonempty st (s : scheduler) :
  _scheduler st = Some s → live_ok st → 0 < len (timers s) →
  wp (sweep growcap)
     (λ _ st', ∃ s', _scheduler st' = Some s' ∧ 0 < len (timers s'))
     (λ _ st', _scheduler st' = Some s) st.
Proof.
  intros Hs Hok Hpos. unfold live_ok in Hok.
  rewrite (live_ok_scheduler st s Hs) in Hok. destruct Hok as (Hwf & _ & _).
  unfold sweep. rewrite wp_bind, (wp_load_s s) by exact Hs. rewrite wp_bind.
  pose proof (sweep_from_frame (elems (timers s)) 0 [] st (Forall_nil_2 _))
    as Hfr.
  unfold wp in Hfr |- *.
  destruct (sweep_from 0 (elems (timers s)) [] st) as [st' [del|v]].
  - destruct Hfr as (Hs' & _ & Hdel). rewrite Hs in Hs'.
    destruct (remove_all_ok growcap del (timers s))
      as (tm' & Hrm & Hlen & _); [|exact Hwf|].
    { eapply Forall_impl; [exact Hdel|]. simpl. intros idx Hidx.
      unfold elems, cap in *. rewrite length_take in Hidx. lia. }
    assert (HQ : wp (remove_marked growcap del)
                  (λ _ st'', ∃ s', _scheduler st'' = Some s' ∧
                                   0 < len (timers s'))
                  (λ _ _, False) st').
    { apply (wp_remove_marked growcap del s tm' _ _ st' Hs' Hrm). simpl.
      eexists. split; [reflexivity|]. simpl. rewrite Hlen.
      destruct (last del); simpl; lia. }
    unfold wp in HQ.
    by destruct (remove_marked growcap del st') as [st'' [u|v]].
  - destruct Hfr as (Hs' & _). by rewrite Hs'.
Qed.

Lemma poll_step_nonempty sel st :
  sel ≠ SelStop → live_ok st →
  0 < len (timers (current_scheduler st)) →
  0 < len (timers (current_scheduler (poll_step growcap sel st))).
Proof.
  intros Hsel Hok Hpos. unfold poll_step.
  destruct (_scheduler st) as [s|] eqn:Hs; [|done].
  destruct (polling s) eqn:Hpoll; [|done].
  destruct (ready sel st) eqn:Hready; [|done].
  pose proof (poll_step_select growcap sel st s Hs Hpoll Hready) as Hstep.
  unfold poll_step in Hstep. rewrite Hs, Hpoll, Hready in Hstep.
  simpl in Hstep. simpl. rewrite Hstep. clear Hstep.
  rewrite (live_ok_scheduler st s Hs) in Hpos.
  destruct sel as [|k|]; simpl; [done| |].
  - unfold bind, load_s. rewrite Hs.
    destruct (queue_ch s !! k) as [g|] eqn:Hg; simpl.
    + unfold current_scheduler. simpl. rewrite append_len. lia.
    + by rewrite (live_ok_scheduler st s Hs).
  - pose proof (sweep_nonempty st s Hs Hok Hpos) as Hwp. unfold wp in Hwp.
    unfold bind. destruct (sweep growcap st) as [st' [u|v]]; simpl.
    + destruct Hwp as (s' & Hs' & Hpos').
      by rewrite (live_ok_scheduler st' s' Hs').
    + unfold poll_returned, current_scheduler. simpl. by rewrite Hwp.
Qed.

Lemma registration_nonempty (o : object) (g : sender) st st1 :
  _scheduler st1 = _scheduler st →
  0 < len (timers (current_scheduler st)) →
  0 < len (timers (current_scheduler
                     (enqueued g (set_heap (heap st1 ++ [o]) st1)))).
Proof.
  unfold enqueued, current_scheduler. simpl. intros Hs.
  unfold current_scheduler. simpl. by rewrite Hs.
Qed.

Lemma step_nonempty (e : event) st :
  e ≠ PollRound SelStop → live_ok st →
  0 < len (timers (current_scheduler st)) →
  0 < len (timers (current_scheduler (step growcap e st))).
Proof.
  intros He Hok Hpos.
  destruct e as [T fn v delay|T fn v delay interval|sel]; simpl.
  - rewrite NewOneTimer_eq. cbn [fst].
    by apply (registration_nonempty _ _ st (after_now st)).
  - rewrite NewIntervalTimer_eq. cbn [fst].
    by apply (registration_nonempty _ _ st (after_now (after_now st))).
  - apply poll_step_nonempty; auto. intros ->. by apply He.
Qed.

Lemma run_live_ok_from (es : list event) st :
  live_ok st → live_ok (run growcap es st).
Proof.
  revert st. induction es as [|e es IH]; intros st H; [exact H|].
  rewrite run_cons. by apply IH, step_live_ok.
Qed.

(** X12. Once a timer has been received, the live set of the scheduler is
    never empty again as long as no stop signal is taken: the removal loop
    leaves [2 * idx + 1] entries, so no sweep removes the last entry, one-shot
    or not. *)
Theorem live_set_never_emptied (w : World) (k : list N)
    (before later : list event) :
  Forall (λ e, e ≠ PollRound SelStop) later →
  0 < len (timers (current_scheduler (run growcap before (boot w k)))) →
  0 < len (timers (current_scheduler
                     (run growcap (before ++ later) (boot w k)))).
Proof.
  intros Hlater Hpos. rewrite run_app.
  assert (Hok : live_ok (run growcap before (boot w k))).
  { apply run_live_ok_from. by apply live_ok_no_scheduler. }
  revert Hok Hpos. generalize (run growcap before (boot w k)).
  induction Hlater as [|e later He _ IH]; intros st Hok Hpos; [exact Hpos|].
  rewrite run_cons. apply IH.
  - by apply step_live_ok.
  - by apply step_nonempty.
Qed.

End NeverEmptied.

Section Repeating.
Context {World : Type} (growcap : nat → nat → nat).
Implicit Types st : @state World.

Lemma object_tick_repeats (o : @object World) now w :
  object_repeats o → object_repeats (after (object_tick o now w)).
Proof.
  unfold object_repeats.
  destruct (object_tick_capabilities o now w) as (_ & -> & ->). done.
Qed.

Lemma points_to_tick (h : list object) q (o : @object World) now w ts :
  h !! q = Some o →
  Forall (points_to object_repeats h) ts →
  Forall (points_to object_repeats (<[q:=after (object_tick o now w)]> h)) ts.
Proof.
  intros Hq Hts. eapply Forall_impl; [exact Hts|].
  intros t (q' & o' & -> & Hq' & Ho'). exists q'.
  destruct (decide (q = q')) as [<-|Hne].
  - exists (after (object_tick o now w)). split; [done|]. split.
    + rewrite list_lookup_insert_eq by (by apply lookup_lt_Some in Hq). done.
    + apply object_tick_repeats. congruence.
  - exists o'. by rewrite list_lookup_insert_ne.
Qed.

(** A sweep over interval timers whose stop flag is unset marks nothing. *)
Lemma sweep_from_repeats ts j del st :
  Forall (points_to object_repeats (heap st)) ts →
  wp (sweep_from j ts del) (λ del' _, del' = del) (λ _ _, True) st.
Proof.
  revert j del st. induction ts as [|t ts IH]; intros j del st Hts.
  { simpl. by rewrite wp_ret. }
  apply Forall_cons in Hts as [(q & o & -> & Hq & Hi & Hstop) Hts].
  simpl. rewrite wp_bind.
  unfold sweep_one. rewrite wp_bind, (wp_timer_getInterval q o) by exact Hq.
  destruct Hi as [i Hi]. rewrite Hi.
  rewrite wp_bind, (wp_timer_getStop q o) by exact Hq. rewrite Hstop.
  rewrite wp_bind, wp_time_Now. cbv beta. rewrite wp_bind.
  assert (Hq' : heap (after_now st) !! q = Some o) by exact Hq.
  rewrite (wp_timer_tick q o) by exact Hq'. cbv zeta.
  pose proof (points_to_tick (heap st) q o (next_time st)
                (world (after_now st)) ts Hq Hts) as Hts'.
  destruct (panicked _); [done|].
  destruct (called _); rewrite wp_ret; by apply IH.
Qed.

(** X13. A sweep changes nothing of a live set that holds interval timers
    only: in every run of the program, after a trip through the default
    branch the scheduler has the live set, entry for entry in the same
    backing array, and the queue it had before, whether a callback has
    panicked or not.  An interval timer is never taken out of the live
    set. *)
Theorem interval_timers_stay_live (w : World) (k : list N)
    (es : list event) (s : scheduler) :
  _scheduler (run growcap es (boot w k)) = Some s → polling s = true →
  Forall (points_to (λ o, is_Some (object_getInterval o))
                    (heap (run growcap es (boot w k))))
         (elems (timers s)) →
  ∃ s', _scheduler (step growcap (PollRound SelDefault)
                      (run growcap es (boot w k))) = Some s' ∧
        timers s' = timers s ∧ queue_ch s' = queue_ch s.
Proof.
  assert (Hall : Forall object_unstopped (heap (run growcap es (boot w k)))).
  { apply run_heap_all.
    - apply object_tick_unstopped.
    - apply Forall_forall. intros e _. apply event_builds_unstopped.
    - constructor. }
  revert Hall. generalize (run growcap es (boot w k)).
  intros st Hall Hs Hpoll Hts.
  assert (Hrep : Forall (points_to object_repeats (heap st))
                        (elems (timers s))).
  { eapply Forall_impl; [exact Hts|]. intros t (q & o & -> & Hq & Hi).
    exists q, o. split; [done|]. split; [done|]. split; [exact Hi|].
    pose proof (proj1 (Forall_lookup _ _) Hall q o Hq) as Ho.
    destruct o as [T x|T x]; [exact Ho|].
    destruct Hi as [i Hi]. discriminate. }
  simpl.
  rewrite (poll_step_select growcap SelDefault st s Hs Hpoll) by reflexivity.
  unfold poll_select, sweep, bind at 1 2 3, load_s. rewrite Hs.
  pose proof (sweep_from_frame (elems (timers s)) 0 [] st (Forall_nil_2 _))
    as Hfr.
  pose proof (sweep_from_repeats (elems (timers s)) 0 [] st Hrep) as Hdel.
  unfold wp in Hfr, Hdel.
  destruct (sweep_from 0 (elems (timers s)) [] st) as [st' [del|v]].
  - destruct Hfr as (Hs' & _ & _). rewrite Hs in Hs'. subst del. simpl.
    exists s. by rewrite Hs'.
  - destruct Hfr as (Hs' & _). rewrite Hs in Hs'.
    unfold poll_returned. simpl. rewrite Hs'. eexists. split; [reflexivity|].
    done.
Qed.

End Repeating.

(** * Further scenarios *)

(** X1, at the one-shot timer of a short run. *)
Lemma interval_timer_never_stopped_witness :
  heap one_shot_live !! 0 = Some (ObjOne (mkOneTimer 5%Z record_payload "a")) ∧
  object_getStop (ObjOne (mkOneTimer 5%Z record_payload "a")) = true ∧
  object_getInterval (ObjOne (mkOneTimer 5%Z record_payload "a")) = None.
Proof.
  split; [reflexivity|]. split; [reflexivity|].
  exact (interval_timer_never_stopped doubling ([] : results) [5; 5; 5; 5]%N
           [CallNewOneTimer record_payload "a" None; PollRound (SelQueue 0)]
           0 (ObjOne (mkOneTimer 5%Z record_payload "a")) eq_refl eq_refl).
Defined.

(** X3, at a stop taken while a one-shot timer is live: the timer does not
    fire in the sweeps of the scheduler that follows. *)
Lemma stop_tears_down_witness :
  let s := mkScheduler (mkSlice [Some 0] 1) [] true in
  let later := [CallNewOneTimer record_payload "b" (Some 3%Z);
                PollRound (SelQueue 0); PollRound SelDefault;
                PollRound SelDefault] in
  _scheduler one_shot_live = Some s ∧ polling s = true ∧
  0 < length (heap one_shot_live) ∧
  fires_of 0 (run doubling later
                (step doubling (PollRound SelStop) one_shot_live)) =
    fires_of 0 one_shot_live.
Proof.
  intros s later.
  assert (H1 : _scheduler one_shot_live = Some s) by reflexivity.
  assert (H2 : polling s = true) by reflexivity.
  assert (H3 : 0 < length (heap one_shot_live)) by (vm_compute; lia).
  repeat (split; [assumption|]).
  exact (proj2 (proj2 (proj2
    (stop_tears_down doubling record_payload "b" None one_shot_live s 0 later
       H1 H2 H3)))).
Defined.

(** X4, after the recovered panic of the faulting callback. *)
Lemma poll_returned_for_good_witness :
  let s := mkScheduler (mkSlice [Some 0; Some 1] 2) [] false in
  let es := [CallNewOneTimer record_payload "c" None; PollRound (SelQueue 0);
             PollRound SelDefault] in
  _scheduler fault_recovered = Some s ∧ polling s = false ∧
  fires (run doubling es fault_recovered) = fires fault_recovered ∧
  world (run doubling es fault_recovered) = world fault_recovered.
Proof.
  intros s es.
  assert (H1 : _scheduler fault_recovered = Some s) by reflexivity.
  assert (H2 : polling s = false) by reflexivity.
  repeat (split; [assumption|]).
  destruct (poll_returned_for_good doubling es fault_recovered s H1 H2)
    as (H3 & H4 & _).
  split; [exact H3|exact H4].
Defined.

(** X5, at the receive of the one-shot timer. *)
Lemma receive_appends_witness :
  let g := mkSender (Some 0) 5%Z true in
  let s := mkScheduler make0 [g] true in
  _scheduler one_shot_queued = Some s ∧ polling s = true ∧
  len (timers s) ≤ cap (timers s) ∧ queue_ch s !! 0 = Some g ∧
  ∃ s', _scheduler (step doubling (PollRound (SelQueue 0)) one_shot_queued)
          = Some s' ∧
        elems (timers s') = elems (timers s) ++ [sent g].
Proof.
  intros g s.
  assert (H1 : _scheduler one_shot_queued = Some s) by reflexivity.
  assert (H2 : polling s = true) by reflexivity.
  assert (H3 : len (timers s) ≤ cap (timers s)) by (vm_compute; lia).
  assert (H4 : queue_ch s !! 0 = Some g) by reflexivity.
  repeat (split; [assumption|]).
  destruct (receive_appends doubling one_shot_queued s 0 g H1 H2 H3 H4)
    as (s' & H5 & H6 & _).
  exists s'. split; [exact H5|exact H6].
Defined.

(** X8, at a run with one returning callback. *)
Lemma loop_survives_returning_callbacks_witness :
  let es := [CallNewOneTimer record_payload "a" None; PollRound (SelQueue 0);
             PollRound SelDefault; PollRound SelDefault] in
  Forall (event_builds object_gentle) es ∧
  alive (run doubling es (boot ([] : results) [5; 5; 5; 5]%N)) = true ∧
  stdout (run doubling es (boot ([] : results) [5; 5; 5; 5]%N)) = [].
Proof.
  intros es.
  assert (H : Forall (event_builds object_gentle) es).
  { repeat constructor. }
  split; [exact H|].
  exact (loop_survives_returning_callbacks doubling ([] : results)
           [5; 5; 5; 5]%N es H).
Defined.

(** X9, at the live one-shot timer: the sweep fires it once. *)
Lemma live_one_shot_fires_witness :
  let s := mkScheduler (mkSlice [Some 0] 1) [] true in
  let x := mkOneTimer 5%Z record_payload "a" in
  _scheduler one_shot_live = Some s ∧ polling s = true ∧
  len (timers s) ≤ cap (timers s) ∧
  Forall (λ t, ∃ q, t = Some q ∧ q < length (heap one_shot_live))
         (elems (timers s)) ∧
  Forall object_gentle (heap one_shot_live) ∧
  heap one_shot_live !! 0 = Some (ObjOne x) ∧
  length (fires_of 0 (step doubling (PollRound SelDefault) one_shot_live)) =
    length (fires_of 0 one_shot_live) +
    length (filter (λ t, t = Some 0) (elems (timers s))).
Proof.
  intros s x.
  assert (H1 : _scheduler one_shot_live = Some s) by reflexivity.
  assert (H2 : polling s = true) by reflexivity.
  assert (H3 : len (timers s) ≤ cap (timers s)) by (vm_compute; lia).
  assert (H4 : Forall (λ t, ∃ q, t = Some q ∧ q < length (heap one_shot_live))
                      (elems (timers s))).
  { repeat constructor. exists 0. split; [reflexivity|vm_compute; lia]. }
  assert (H5 : Forall object_gentle (heap one_shot_live)).
  { repeat constructor. }
  assert (H6 : heap one_shot_live !! 0 = Some (ObjOne x)) by reflexivity.
  repeat (split; [assumption|]).
  exact (live_one_shot_fires doubling 0 x one_shot_live s H1 H2 H3 H4 H5 H6).
Defined.

(** X10, at the one-shot timer after two more sweeps. *)
Lemma timer_keeps_capabilities_witness :
  let o := ObjOne (mkOneTimer 5%Z record_payload "a") in
  heap one_shot_live !! 0 = Some o ∧
  ∃ o', heap (run doubling [PollRound SelDefault; PollRound SelDefault]
                one_shot_live) !! 0 = Some o' ∧
        object_getCreated o' = object_getCreated o.
Proof.
  intros o.
  assert (H : heap one_shot_live !! 0 = Some o) by reflexivity.
  split; [exact H|].
  destruct (timer_keeps_capabilities doubling
              [PollRound SelDefault; PollRound SelDefault] one_shot_live 0 o H)
    as (o' & H1 & H2 & _).
  exists o'. split; [exact H1|exact H2].
Defined.

(** X11, at the live interval timer that is due since 22: the sweep that
    starts at 32 fires it. *)
Lemma due_interval_timer_fires_witness :
  let s := mkScheduler (mkSlice [Some 0] 1) [] true in
  let x := mkIntervalTimer 1 20 22 record_payload "1" false in
  _scheduler interval_live = Some s ∧ polling s = true ∧
  heap interval_live !! 0 = Some (ObjInterval x) ∧
  (it_n x < clock interval_live)%Z ∧
  Some 0 ∈ elems (timers s) ∧
  length (fires_of 0 interval_live) <
    length (fires_of 0 (step doubling (PollRound SelDefault) interval_live)).
Proof.
  intros s x.
  assert (H1 : _scheduler interval_live = Some s) by reflexivity.
  assert (H2 : polling s = true) by reflexivity.
  assert (H3 : len (timers s) ≤ cap (timers s)) by (vm_compute; lia).
  assert (H4 : Forall (λ t, ∃ q, t = Some q ∧ q < length (heap interval_live))
                      (elems (timers s))).
  { repeat constructor. exists 0. split; [reflexivity|vm_compute; lia]. }
  assert (H5 : Forall object_gentle (heap interval_live)).
  { repeat constructor. }
  assert (H6 : heap interval_live !! 0 = Some (ObjInterval x)) by reflexivity.
  assert (H7 : it_s x = false) by reflexivity.
  assert (H8 : (it_n x < clock interval_live)%Z) by (vm_compute; reflexivity).
  assert (H9 : Some 0 ∈ elems (timers s)) by (vm_compute; constructor).
  split; [exact H1|]. split; [exact H2|]. split; [exact H6|].
  split; [exact H8|]. split; [exact H9|].
  exact (due_interval_timer_fires doubling x 0 interval_live s
           H1 H2 H3 H4 H5 H6 H7 H8 H9).
Defined.

(** X12, at a one-shot timer that is live: two sweeps later the live set
    still has an entry. *)
Lemma live_set_never_emptied_witness :
  let before := [CallNewOneTimer record_payload "a" None;
                 PollRound (SelQueue 0)] in
  let later := [PollRound SelDefault; PollRound SelDefault] in
  Forall (λ e, e ≠ PollRound SelStop) later ∧
  0 < len (timers (current_scheduler
                     (run doubling before (boot ([] : results)
                                             [5; 5; 5; 5]%N)))) ∧
  0 < len (timers (current_scheduler
                     (run doubling (before ++ later)
                        (boot ([] : results) [5; 5; 5; 5]%N)))).
Proof.
  intros before later.
  assert (H1 : Forall (λ e : @event results, e ≠ PollRound SelStop) later).
  { repeat (apply Forall_cons_2; [discriminate|]). apply Forall_nil_2. }
  assert (H2 : 0 < len (timers (current_scheduler
                 (run doubling before (boot ([] : results) [5; 5; 5; 5]%N)))))
    by (vm_compute; lia).
  split; [exact H1|]. split; [exact H2|].
  exact (live_set_never_emptied doubling ([] : results) [5; 5; 5; 5]%N
           before later H1 H2).
Defined.

(** X13, at the live interval timer: the sweep that fires it leaves the
    live set as it was. *)
Lemma interval_timers_stay_live_witness :
  let s := mkScheduler (mkSlice [Some 0] 1) [] true in
  _scheduler interval_live = Some s ∧ polling s = true ∧
  Forall (points_to (λ o, is_Some (object_getInterval o)) (heap interval_live))
         (elems (timers s)) ∧
  ∃ s', _scheduler (step doubling (PollRound SelDefault) interval_live)
          = Some s' ∧
        timers s' = timers s ∧ queue_ch s' = queue_ch s.
Proof.
  intros s.
  assert (H1 : _scheduler interval_live = Some s) by reflexivity.
  assert (H2 : polling s = true) by reflexivity.
  assert (H3 : Forall (points_to (λ o, is_Some (object_getInterval o))
                                 (heap interval_live))
                      (elems (timers s))).
  { apply Forall_cons_2; [|apply Forall_nil_2].
    exists 0, (ObjInterval (mkIntervalTimer 1 20 22 record_payload "1" false)).
    split; [reflexivity|]. split; [reflexivity|]. exists 20%Z. reflexivity. }
  split; [exact H1|]. split; [exact H2|]. split; [exact H3|].
  exact (interval_timers_stay_live doubling ([] : results)
           [1; 1; 9; 9; 9; 9]%N
           [CallNewIntervalTimer record_payload "1" (Some 30%Z) 20%Z;
            PollRound (SelQueue 0)]
           s H1 H2 H3).
Defined.
